(** * jsondom: a JSON document model, its reader and its writer

    A shallow embedding of [src/jsondom/dom.hpp] and [src/jsondom/dom.cpp]:
    the six-kind [value] variant and its checked accessors, the tree builder
    [dom_parser] that turns parser events into a [value], [read], the
    serializer ([escape_string], [write_internal], [write]) and
    [value::to_string].  Text ([std::string], [utki::span<const char>]) is
    [string]; a [char] is an [ascii]. *)

From Stdlib Require Import String Ascii List Bool Arith NArith Lia.
From Stdlib Require Import OrderedTypeEx Permutation.
Import ListNotations.

Open Scope list_scope.
Open Scope string_scope.

(** ** Exceptions

    Every exception the code can raise, as one error type; a throwing
    function returns [result].  [ASSERT] is taken as checked, as in a debug
    build: a failed assertion is the error [assertion_failed].  A step the
    source leaves undefined and does not guard by an assertion
    ([pop_back] on an empty vector) ends in [undefined_behaviour]: the
    source says nothing of what happens then, and no property below does. *)

Inductive error : Type :=
| unexpected_value_type (message : string)  (* errors.hpp, thrown by the accessors *)
| malformed_json_error (c : ascii)          (* the parser's syntax error *)
| logic_error (message : string)            (* std::logic_error *)
| bad_variant_access                        (* std::get on the wrong alternative *)
| assertion_failed                          (* ASSERT / utki::assert *)
| undefined_behaviour                       (* a step the source leaves undefined *)
| file_error (message : string).            (* a papki::file operation failed *)

Definition result (A : Type) : Type := (error + A)%type.

Definition ok {A} (a : A) : result A := inr a.
Definition throw {A} (e : error) : result A := inl e.

Definition bind {A B} (r : result A) (k : A -> result B) : result B :=
  match r with
  | inl e => inl e
  | inr a => k a
  end.

Declare Scope result_scope.
Delimit Scope result_scope with result.
Notation "x <- r ;; k" := (bind r (fun x => k))
  (at level 61, r at next level, right associativity) : result_scope.
Notation "' p <- r ;; k" := (bind r (fun x => let p := x in k))
  (at level 61, p pattern, r at next level, right associativity) : result_scope.
Open Scope result_scope.

Definition succeeds {A} (r : result A) : Prop := exists a, r = inr a.
Definition fails_with {A} (r : result A) (e : error) : Prop := r = inl e.

(** ** The six kinds (dom.hpp, [enum class type]) *)

Inductive type : Type :=
| type_null
| type_boolean
| type_number
| type_string
| type_object
| type_array.

Definition type_eqb (a b : type) : bool :=
  match a, b with
  | type_null, type_null
  | type_boolean, type_boolean
  | type_number, type_number
  | type_string, type_string
  | type_object, type_object
  | type_array, type_array => true
  | _, _ => false
  end.

(** Modelled from the spec: [string_number] ([string_number.hpp] is not among
    the sources).  It "wraps the exact source text of a JSON number"; the
    text is stored verbatim and [get_string] returns it.  [string_number(0)]
    is the literal "0". *)
Record string_number : Type := mk_string_number { get_string : string }.

Definition string_number_of_zero : string_number := mk_string_number "0".

(** ** value (dom.hpp)

    [std::variant<nullptr_t, bool, string_number, std::string, object_type,
    array_type>].  [object_type] is [std::map<std::string, value,
    std::less<>>]: its entries are kept as an association list in ascending
    key order without repeated keys ([map_insert] below maintains it, and
    iteration from [begin()] to [end()] is the list order).  [array_type] is
    [std::vector<value>]. *)

#[warnings="-register-all"] Inductive value : Type :=
| VNull
| VBoolean (b : bool)
| VNumber (n : string_number)
| VString (s : string)
| VObject (m : list (string * value))
| VArray (a : list value).

Definition object_type : Type := list (string * value).
Definition array_type : Type := list value.

(** Induction over a tree, with the hypothesis for every element of an
    array and every member of an object. *)
Section value_induction.
Variable P : value -> Prop.
Hypothesis P_null : P VNull.
Hypothesis P_boolean : forall b, P (VBoolean b).
Hypothesis P_number : forall n, P (VNumber n).
Hypothesis P_string : forall s, P (VString s).
Hypothesis P_object : forall m, Forall (fun kx => P (snd kx)) m -> P (VObject m).
Hypothesis P_array : forall a, Forall P a -> P (VArray a).

Fixpoint value_tree_ind (v : value) : P v :=
  match v with
  | VNull => P_null
  | VBoolean b => P_boolean b
  | VNumber n => P_number n
  | VString s => P_string s
  | VObject m =>
      P_object m
        ((fix members (l : list (string * value)) : Forall (fun kx => P (snd kx)) l :=
            match l with
            | [] => Forall_nil _
            | kx :: l' => Forall_cons kx (value_tree_ind (snd kx)) (members l')
            end) m)
  | VArray a =>
      P_array a
        ((fix elements (l : list value) : Forall P l :=
            match l with
            | [] => Forall_nil _
            | x :: l' => Forall_cons x (value_tree_ind x) (elements l')
            end) a)
  end.
End value_induction.

(** [value::value(jsondom::type)] *)
Definition value_of_type (t : type) : value :=
  match t with
  | type_null => VNull
  | type_boolean => VBoolean false
  | type_number => VNumber string_number_of_zero
  | type_string => VString ""
  | type_object => VObject []
  | type_array => VArray []
  end.

(** [var.index()] seen as a [type] *)
Definition get_type (v : value) : type :=
  match v with
  | VNull => type_null
  | VBoolean _ => type_boolean
  | VNumber _ => type_number
  | VString _ => type_string
  | VObject _ => type_object
  | VArray _ => type_array
  end.

Definition is_ (json_type : type) (v : value) : bool :=
  type_eqb (get_type v) json_type.

(** dom.cpp, [type_to_name] *)
Definition type_to_name (t : type) : string :=
  match t with
  | type_null => "null"
  | type_boolean => "boolean"
  | type_number => "number"
  | type_string => "string"
  | type_object => "object"
  | type_array => "array"
  end.

(** The text [utki::cat] builds in [value::throw_access_error]. *)
Definition access_error_message (tried_access actual : type) : string :=
  "jsondom: could not access " ++ type_to_name tried_access
    ++ "value, stored value is of another type (" ++ type_to_name actual ++ ")".

Definition throw_access_error {A} (tried_access : type) (v : value) : result A :=
  throw (unexpected_value_type (access_error_message tried_access (get_type v))).

Definition throw_if_type_is_not (json_type : type) (v : value) : result unit :=
  if negb (is_ json_type v) then throw_access_error json_type v else ok tt.

(** [std::get<T>(this->var)] for each payload type. *)
Definition std_get_bool (v : value) : result bool :=
  match v with VBoolean b => ok b | _ => throw bad_variant_access end.
Definition std_get_string_number (v : value) : result string_number :=
  match v with VNumber n => ok n | _ => throw bad_variant_access end.
Definition std_get_string (v : value) : result string :=
  match v with VString s => ok s | _ => throw bad_variant_access end.
Definition std_get_object (v : value) : result object_type :=
  match v with VObject m => ok m | _ => throw bad_variant_access end.
Definition std_get_array (v : value) : result array_type :=
  match v with VArray a => ok a | _ => throw bad_variant_access end.

(** The read-only accessors. *)
Definition boolean (v : value) : result bool :=
  _ <- throw_if_type_is_not type_boolean v ;; std_get_bool v.
Definition number (v : value) : result string_number :=
  _ <- throw_if_type_is_not type_number v ;; std_get_string_number v.
Definition string_ (v : value) : result string :=
  _ <- throw_if_type_is_not type_string v ;; std_get_string v.
Definition array (v : value) : result array_type :=
  _ <- throw_if_type_is_not type_array v ;; std_get_array v.
Definition object (v : value) : result object_type :=
  _ <- throw_if_type_is_not type_object v ;; std_get_object v.

(** The mutable accessors return a reference into the variant: the payload
    together with the store through that reference. *)
Record reference (A : Type) : Type := mk_reference {
  deref : A;
  assign : A -> value
}.
Arguments mk_reference {A} _ _.
Arguments deref {A} _.
Arguments assign {A} _ _.

Definition boolean_ref (v : value) : result (reference bool) :=
  _ <- throw_if_type_is_not type_boolean v ;;
  b <- std_get_bool v ;; ok (mk_reference b VBoolean).
Definition number_ref (v : value) : result (reference string_number) :=
  _ <- throw_if_type_is_not type_number v ;;
  n <- std_get_string_number v ;; ok (mk_reference n VNumber).
Definition string_ref (v : value) : result (reference string) :=
  _ <- throw_if_type_is_not type_string v ;;
  s <- std_get_string v ;; ok (mk_reference s VString).
Definition array_ref (v : value) : result (reference array_type) :=
  _ <- throw_if_type_is_not type_array v ;;
  a <- std_get_array v ;; ok (mk_reference a VArray).
Definition object_ref (v : value) : result (reference object_type) :=
  _ <- throw_if_type_is_not type_object v ;;
  m <- std_get_object v ;; ok (mk_reference m VObject).

(** What the accessor contract says of one accessor of kind [k] applied to
    [v] with outcome [r]. *)
Definition wrong_type_exactly {A} (k : type) (v : value) (r : result A) : Prop :=
  (succeeds r <-> get_type v = k) /\
  (get_type v <> k <->
   fails_with r (unexpected_value_type (access_error_message k (get_type v)))).

(** ** object_type operations

    [std::less<>] on [std::string] is the lexicographic order on bytes,
    [String.compare].  [map_insert k v m] is [m[k] = v]: it overwrites the
    entry of an equal key and otherwise inserts at the key's place. *)

Fixpoint map_insert (k : string) (v : value) (m : object_type) : object_type :=
  match m with
  | [] => [(k, v)]
  | (k', v') :: m' =>
      match String.compare k k' with
      | Lt => (k, v) :: (k', v') :: m'
      | Eq => (k, v) :: m'
      | Gt => (k', v') :: map_insert k v m'
      end
  end.

Fixpoint map_find (k : string) (m : object_type) : option value :=
  match m with
  | [] => None
  | (k', v') :: m' => if String.eqb k k' then Some v' else map_find k m'
  end.

(** Strictly ascending keys: the [std::map] invariant. *)
Definition keys_above (k : string) (m : object_type) : bool :=
  match m with
  | [] => true
  | (k', _) :: _ => String.ltb k k'
  end.

Fixpoint map_sorted (m : object_type) : bool :=
  match m with
  | [] => true
  | (k, _) :: m' => keys_above k m' && map_sorted m'
  end.

(** ** Serializer (dom.cpp) *)

(** One iteration of the loop of [escape_string]: what is sent to [ss]. *)
Definition escape_char (c : ascii) : string :=
  match c with
  | "034"%char => String "\" (String "034" "")
  | "\"%char => "\\"
  | "/"%char => "\/"
  | "008"%char => "\b"
  | "012"%char => "\f"
  | "010"%char => "\n"
  | "013"%char => "\r"
  | "009"%char => "\t"
  | _ => String c ""
  end.

Fixpoint escape_string_loop (str : string) (ss : string) : string :=
  match str with
  | "" => ss
  | String c str' => escape_string_loop str' (ss ++ escape_char c)
  end.

Definition escape_string (str : string) : string :=
  escape_string_loop str "".

Definition open_curly_brace : string := "{".
Definition close_curly_brace : string := "}".
Definition open_square_brace : string := "[".
Definition close_square_brace : string := "]".
Definition double_quote : string := String "034" "".
Definition double_quote_and_colon : string := String "034" ":".
Definition comma : string := ",".
Definition word_true : string := "true".
Definition word_false : string := "false".
Definition word_null : string := "null".

(** *** The file interface consumed ([papki::file])

    An external collaborator, taken as an interface: a file is a state, and
    each operation returns the new state and either a result or an
    exception.  [file_read n] fills a buffer of [n] bytes and returns the
    bytes read (none at the end of the data). *)

Inductive mode : Type := mode_read | mode_write | mode_create.

Definition io (F A : Type) : Type := F -> F * result A.

Definition io_ret {F A} (a : A) : io F A := fun fi => (fi, ok a).
Definition io_throw {F A} (e : error) : io F A := fun fi => (fi, throw e).
Definition io_bind {F A B} (m : io F A) (k : A -> io F B) : io F B :=
  fun fi =>
    match m fi with
    | (fi', inl e) => (fi', inl e)
    | (fi', inr a) => k a fi'
    end.

Declare Scope io_scope.
Delimit Scope io_scope with io.
Notation "m1 ;; m2" := (io_bind m1 (fun _ => m2))
  (at level 61, right associativity) : io_scope.

Class file (F : Type) : Type := {
  file_open : mode -> io F unit;
  file_close : F -> F;
  file_write : string -> io F unit;
  file_read : nat -> io F string
}.

(** [papki::file::guard]: the constructor opens the file, the destructor
    closes it on every exit of the scope, also when the body throws. *)
Definition with_guard {F} `{file F} {A} (m : mode) (body : io F A) : io F A :=
  fun fi =>
    match file_open m fi with
    | (fi', inl e) => (fi', inl e)
    | (fi', inr _) => let (fi'', r) := body fi' in (file_close fi'', r)
    end.

Section Serializer.
Context {F : Type} `{file F}.
Local Open Scope io_scope.

Section Loops.
Variable write_value : value -> io F unit.

(** The loop over [v.array()]; [at_begin] is [i == v.array().begin()]. *)
Fixpoint write_elements (at_begin : bool) (l : list value) : io F unit :=
  match l with
  | [] => io_ret tt
  | x :: l' =>
      (if at_begin then io_ret tt else file_write comma) ;;
      write_value x ;;
      write_elements false l'
  end.

(** The loop over [v.object()]. *)
Fixpoint write_members (at_begin : bool) (l : list (string * value))
  : io F unit :=
  match l with
  | [] => io_ret tt
  | (k, x) :: l' =>
      (if at_begin then io_ret tt else file_write comma) ;;
      file_write double_quote ;;
      file_write (escape_string k) ;;
      file_write double_quote_and_colon ;;
      write_value x ;;
      write_members false l'
  end.
End Loops.

(** The [switch] on [v.get_type()] followed by the accessor of that kind
    is the match on the variant. *)
Fixpoint write_internal (v : value) : io F unit :=
  match v with
  | VNull => file_write word_null
  | VBoolean b => if b then file_write word_true else file_write word_false
  | VNumber n => file_write (get_string n)
  | VString s =>
      file_write double_quote ;;
      file_write (escape_string s) ;;
      file_write double_quote
  | VArray a =>
      file_write open_square_brace ;;
      write_elements write_internal true a ;;
      file_write close_square_brace
  | VObject m =>
      file_write open_curly_brace ;;
      write_members write_internal true m ;;
      file_write close_curly_brace
  end.

Definition invalid_root : error :=
  logic_error "tried to write JSON with non-object root element".

(** [jsondom::write] *)
Definition write (v : value) : io F unit :=
  if negb (is_ type_object v) then io_throw invalid_root
  else with_guard mode_create (write_internal v).

(** Every open and every write of the sink succeeds. *)
Definition reliable : Prop :=
  (forall m fi, snd (file_open m fi) = ok tt) /\
  (forall s fi, snd (file_write s fi) = ok tt).
End Serializer.

(** *** The in-memory file ([papki::vector_file], [papki::span_file]) *)

(** Modelled from the spec: the in-memory byte source and sink ("a
    scoped-acquisition resource exposing sequential read/write of byte
    spans"), which is not among the sources.  Opening in create mode
    truncates; a write appends at the end; a read delivers the next bytes,
    at most a buffer full, and nothing once the data is exhausted. *)
Record vector_file : Type := mk_vector_file {
  vf_data : string;
  vf_pos : nat;
  vf_is_open : bool
}.

Fixpoint string_take (n : nat) (s : string) : string :=
  match n, s with
  | S n', String c s' => String c (string_take n' s')
  | _, _ => ""
  end.

Fixpoint string_drop (n : nat) (s : string) : string :=
  match n, s with
  | S n', String _ s' => string_drop n' s'
  | _, _ => s
  end.

Definition vector_file_open (m : mode) : io vector_file unit :=
  fun fi =>
    match m with
    | mode_create => (mk_vector_file "" 0 true, ok tt)
    | _ => (mk_vector_file (vf_data fi) 0 true, ok tt)
    end.

Definition vector_file_write (s : string) : io vector_file unit :=
  fun fi =>
    (mk_vector_file (vf_data fi ++ s) (vf_pos fi + String.length s) (vf_is_open fi),
     ok tt).

Definition vector_file_read (n : nat) : io vector_file string :=
  fun fi =>
    let chunk := string_take n (string_drop (vf_pos fi) (vf_data fi)) in
    (mk_vector_file (vf_data fi) (vf_pos fi + String.length chunk) (vf_is_open fi),
     ok chunk).

#[export] Instance vector_file_file : file vector_file := {
  file_open := vector_file_open;
  file_close := fun fi => mk_vector_file (vf_data fi) (vf_pos fi) false;
  file_write := vector_file_write;
  file_read := vector_file_read
}.

Definition empty_vector_file : vector_file := mk_vector_file "" 0 false.
Definition span_file (data : string) : vector_file := mk_vector_file data 0 false.

(** [value::to_string] *)
Definition to_string (v : value) : result string :=
  let (fi, r) := write v empty_vector_file in
  _ <- r ;; ok (vf_data fi).

(** The text [write_internal] sends to the file, piece after piece. *)
Section Text.
Variable text : value -> string.

Fixpoint json_elements (at_begin : bool) (l : list value) : string :=
  match l with
  | [] => ""
  | x :: l' => (if at_begin then "" else comma) ++ text x ++ json_elements false l'
  end.

Fixpoint json_members (at_begin : bool) (l : list (string * value)) : string :=
  match l with
  | [] => ""
  | (k, x) :: l' =>
      (if at_begin then "" else comma) ++
      double_quote ++ escape_string k ++ double_quote_and_colon ++
      text x ++ json_members false l'
  end.
End Text.

Fixpoint json_text (v : value) : string :=
  match v with
  | VNull => word_null
  | VBoolean b => if b then word_true else word_false
  | VNumber n => get_string n
  | VString s => double_quote ++ escape_string s ++ double_quote
  | VArray a => open_square_brace ++ json_elements json_text true a ++ close_square_brace
  | VObject m => open_curly_brace ++ json_members json_text true m ++ close_curly_brace
  end.

(** ** Parser

    [parser.hpp], the push parser [dom_parser] derives from, is not among
    the sources.  The model below follows the spec's section on the parser:
    one step per input byte, the states it lists, a stack of open containers
    whose top decides what may come next, and the partly read token kept in
    the state between chunks.  Where the spec gives only "conceptual" states
    the model refines them as far as the JSON grammar needs: a container
    just opened may be closed at once while one after a comma may not (no
    trailing commas), and the number states record whether the digits the
    grammar requires were seen.  A number has no closing byte: it ends at
    the first byte that cannot continue it, and that byte is then read in
    the enclosing state.  The position the syntax error carries is left
    out. *)

(** Modelled from the spec: the structural events of [parser.hpp], "in the
    order tokens are recognized": object-start, object-end, array-start,
    array-end, key-parsed, string-parsed, number-parsed, boolean-parsed,
    null-parsed. *)
Inductive event : Type :=
| object_start
| object_end
| array_start
| array_end
| key_parsed (str : string)
| string_parsed (str : string)
| number_parsed (str : string)
| boolean_parsed (b : bool)
| null_parsed.

(** Modelled from the spec: the states InArray, InObject, InString,
    InNumber and InLiteral of [parser.hpp]. *)
Inductive array_state : Type :=
| ArrayExpectingValueOrEnd
| ArrayExpectingValue
| ArrayExpectingCommaOrEnd.

Inductive object_state : Type :=
| ObjectExpectingKeyOrEnd
| ObjectExpectingKey
| ObjectExpectingColon
| ObjectExpectingValue
| ObjectExpectingCommaOrEnd.

Inductive container_state : Type :=
| InArray (s : array_state)
| InObject (s : object_state).

Inductive string_state : Type :=
| Normal
| Escape
| UnicodeEscape (remaining : nat) (code : N).

Inductive number_state : Type :=
| Sign
| IntegerDigits (zero : bool)
| Fraction (digits : bool)
| ExponentSign
| ExponentDigits (digits : bool).

Inductive keyword : Type := keyword_true | keyword_false | keyword_null.

Inductive token_state : Type :=
| BetweenTokens
| InString (s : string_state) (buf : string)
| InNumber (s : number_state) (buf : string)
| InLiteral (kw : keyword) (position : nat).

(** Modelled from the spec: the state of the parser of [parser.hpp], the
    stack of open containers and the token being read.  The state
    ExpectingValue at depth 0 is the empty stack between tokens. *)
Record parser : Type := mk_parser {
  container_stack : list container_state;
  token : token_state
}.

Definition parser_init : parser := mk_parser [] BetweenTokens.

Definition is_whitespace (c : ascii) : bool :=
  match c with
  | " "%char | "010"%char | "013"%char | "009"%char => true
  | _ => false
  end.

Definition is_digit (c : ascii) : bool :=
  match c with
  | "0"%char | "1"%char | "2"%char | "3"%char | "4"%char
  | "5"%char | "6"%char | "7"%char | "8"%char | "9"%char => true
  | _ => false
  end.

(** Modelled from the spec: the value of a hexadecimal digit of a unicode
    escape ([parser.hpp]), from the code of the byte. *)
Definition hex_digit (c : ascii) : option N :=
  let code := N_of_ascii c in
  if (N.leb 48 code && N.leb code 57)%bool then Some (code - 48)%N
  else if (N.leb 97 code && N.leb code 102)%bool then Some (code - 87)%N
  else if (N.leb 65 code && N.leb code 70)%bool then Some (code - 55)%N
  else None.

(** Modelled from the spec: the number grammar [parser.hpp] checks, as an
    automaton: an optional minus sign; an
    integer part that is 0 or a nonzero digit followed by digits; an
    optional fraction, a dot and at least one digit; an optional exponent,
    e or E, an optional sign and at least one digit. *)
Definition number_start (c : ascii) : option number_state :=
  match c with
  | "-"%char => Some Sign
  | "0"%char => Some (IntegerDigits true)
  | _ => if is_digit c then Some (IntegerDigits false) else None
  end.

Definition number_continue (s : number_state) (c : ascii) : option number_state :=
  match s with
  | Sign => match c with
            | "0"%char => Some (IntegerDigits true)
            | _ => if is_digit c then Some (IntegerDigits false) else None
            end
  | IntegerDigits zero =>
      match c with
      | "."%char => Some (Fraction false)
      | "e"%char | "E"%char => Some ExponentSign
      | _ => if is_digit c && negb zero then Some (IntegerDigits false) else None
      end
  | Fraction digits =>
      match c with
      | "e"%char | "E"%char => if digits then Some ExponentSign else None
      | _ => if is_digit c then Some (Fraction true) else None
      end
  | ExponentSign =>
      match c with
      | "+"%char | "-"%char => Some (ExponentDigits false)
      | _ => if is_digit c then Some (ExponentDigits true) else None
      end
  | ExponentDigits _ => if is_digit c then Some (ExponentDigits true) else None
  end.

Definition number_complete (s : number_state) : bool :=
  match s with
  | IntegerDigits _ | Fraction true | ExponentDigits true => true
  | _ => false
  end.

Fixpoint number_run (s : number_state) (str : string) : option number_state :=
  match str with
  | "" => Some s
  | String c str' =>
      match number_continue s c with
      | Some s' => number_run s' str'
      | None => None
      end
  end.

(** The text matches the JSON number grammar. *)
Definition number_grammar (str : string) : bool :=
  match str with
  | "" => false
  | String c str' =>
      match number_start c with
      | Some s => match number_run s str' with
                  | Some s' => number_complete s'
                  | None => false
                  end
      | None => false
      end
  end.

Definition keyword_text (kw : keyword) : string :=
  match kw with
  | keyword_true => "true"
  | keyword_false => "false"
  | keyword_null => "null"
  end.

Definition keyword_event (kw : keyword) : event :=
  match kw with
  | keyword_true => boolean_parsed true
  | keyword_false => boolean_parsed false
  | keyword_null => null_parsed
  end.

(** Modelled from the spec: the decoding of a unicode escape in
    [parser.hpp], which the spec leaves open; the escape is stored as the
    UTF-8 encoding of its code unit (below 65536). *)
Definition utf8_encode (code : N) : string :=
  if (code <? 128)%N then String (ascii_of_N code) ""
  else if (code <? 2048)%N then
    String (ascii_of_N (192 + code / 64))
      (String (ascii_of_N (128 + code mod 64)) "")
  else
    String (ascii_of_N (224 + code / 4096))
      (String (ascii_of_N (128 + (code / 64) mod 64))
         (String (ascii_of_N (128 + code mod 64)) "")).

(** Modelled from the spec: the enclosing container after one of its values
    is complete ([parser.hpp]). *)
Definition value_done (stack : list container_state) : list container_state :=
  match stack with
  | [] => []
  | InArray _ :: rest => InArray ArrayExpectingCommaOrEnd :: rest
  | InObject _ :: rest => InObject ObjectExpectingCommaOrEnd :: rest
  end.

Definition step_result : Type := result (list event * parser).

Definition between (evs : list event) (stack : list container_state) : step_result :=
  ok (evs, mk_parser stack BetweenTokens).

Definition syntax_error (c : ascii) : step_result :=
  throw (malformed_json_error c).

(** Modelled from the spec: the first byte of a value ([parser.hpp]). *)
Definition begin_value (stack : list container_state) (c : ascii) : step_result :=
  match c with
  | "{"%char => between [object_start] (InObject ObjectExpectingKeyOrEnd :: stack)
  | "["%char => between [array_start] (InArray ArrayExpectingValueOrEnd :: stack)
  | "034"%char => ok ([], mk_parser stack (InString Normal ""))
  | "t"%char => ok ([], mk_parser stack (InLiteral keyword_true 1))
  | "f"%char => ok ([], mk_parser stack (InLiteral keyword_false 1))
  | "n"%char => ok ([], mk_parser stack (InLiteral keyword_null 1))
  | _ =>
      match number_start c with
      | Some s => ok ([], mk_parser stack (InNumber s (String c "")))
      | None => syntax_error c
      end
  end.

Definition begin_key (stack : list container_state) (c : ascii) : step_result :=
  match c with
  | "034"%char => ok ([], mk_parser stack (InString Normal ""))
  | _ => syntax_error c
  end.

(** Modelled from the spec: a byte between tokens ([parser.hpp]).
    Whitespace is skipped, anything else must be what the top of the
    container stack allows. *)
Definition step_between (stack : list container_state) (c : ascii) : step_result :=
  if is_whitespace c then between [] stack
  else
    match stack with
    | [] => begin_value stack c
    | InArray ArrayExpectingValueOrEnd :: rest =>
        match c with
        | "]"%char => between [array_end] (value_done rest)
        | _ => begin_value stack c
        end
    | InArray ArrayExpectingValue :: _ => begin_value stack c
    | InArray ArrayExpectingCommaOrEnd :: rest =>
        match c with
        | ","%char => between [] (InArray ArrayExpectingValue :: rest)
        | "]"%char => between [array_end] (value_done rest)
        | _ => syntax_error c
        end
    | InObject ObjectExpectingKeyOrEnd :: rest =>
        match c with
        | "}"%char => between [object_end] (value_done rest)
        | _ => begin_key stack c
        end
    | InObject ObjectExpectingKey :: _ => begin_key stack c
    | InObject ObjectExpectingColon :: rest =>
        match c with
        | ":"%char => between [] (InObject ObjectExpectingValue :: rest)
        | _ => syntax_error c
        end
    | InObject ObjectExpectingValue :: _ => begin_value stack c
    | InObject ObjectExpectingCommaOrEnd :: rest =>
        match c with
        | ","%char => between [] (InObject ObjectExpectingKey :: rest)
        | "}"%char => between [object_end] (value_done rest)
        | _ => syntax_error c
        end
    end.

(** Modelled from the spec: the closing quote of a string ([parser.hpp]): a
    key where the object expects one, else a value. *)
Definition end_string (stack : list container_state) (buf : string) : step_result :=
  match stack with
  | InObject ObjectExpectingKeyOrEnd :: rest
  | InObject ObjectExpectingKey :: rest =>
      between [key_parsed buf] (InObject ObjectExpectingColon :: rest)
  | _ => between [string_parsed buf] (value_done stack)
  end.

Definition append_char (buf : string) (c : ascii) : string :=
  buf ++ String c "".

(** Modelled from the spec: a byte inside a string ([parser.hpp]), in the
    states Normal, Escape and UnicodeEscape. *)
Definition step_string (stack : list container_state) (s : string_state)
    (buf : string) (c : ascii) : step_result :=
  let continue s' buf' := ok ([], mk_parser stack (InString s' buf')) in
  match s with
  | Normal =>
      match c with
      | "034"%char => end_string stack buf
      | "\"%char => continue Escape buf
      | _ => continue Normal (append_char buf c)
      end
  | Escape =>
      match c with
      | "034"%char => continue Normal (append_char buf "034")
      | "\"%char => continue Normal (append_char buf "\")
      | "/"%char => continue Normal (append_char buf "/")
      | "b"%char => continue Normal (append_char buf "008")
      | "f"%char => continue Normal (append_char buf "012")
      | "n"%char => continue Normal (append_char buf "010")
      | "r"%char => continue Normal (append_char buf "013")
      | "t"%char => continue Normal (append_char buf "009")
      | "u"%char => continue (UnicodeEscape 4 0) buf
      | _ => syntax_error c
      end
  | UnicodeEscape remaining code =>
      match hex_digit c with
      | Some d =>
          let code' := (code * 16 + d)%N in
          match remaining with
          | 0 | 1 => continue Normal (buf ++ utf8_encode code')
          | S remaining' => continue (UnicodeEscape remaining' code') buf
          end
      | None => syntax_error c
      end
  end.

(** Modelled from the spec: a byte inside a number ([parser.hpp]).  The
    byte that cannot continue a complete number ends it and is read again
    between tokens. *)
Definition step_number (stack : list container_state) (s : number_state)
    (buf : string) (c : ascii) : step_result :=
  match number_continue s c with
  | Some s' => ok ([], mk_parser stack (InNumber s' (append_char buf c)))
  | None =>
      if number_complete s then
        '(evs, p) <- step_between (value_done stack) c ;;
        ok (number_parsed buf :: evs, p)
      else syntax_error c
  end.

(** Modelled from the spec: a byte inside true, false or null
    ([parser.hpp]). *)
Definition step_literal (stack : list container_state) (kw : keyword)
    (position : nat) (c : ascii) : step_result :=
  match String.get position (keyword_text kw) with
  | Some expected =>
      if Ascii.eqb c expected then
        if Nat.eqb (S position) (String.length (keyword_text kw)) then
          between [keyword_event kw] (value_done stack)
        else ok ([], mk_parser stack (InLiteral kw (S position)))
      else syntax_error c
  | None => syntax_error c
  end.

(** Modelled from the spec: one byte of input ([parser.hpp]). *)
Definition parser_step (p : parser) (c : ascii) : step_result :=
  match token p with
  | BetweenTokens => step_between (container_stack p) c
  | InString s buf => step_string (container_stack p) s buf c
  | InNumber s buf => step_number (container_stack p) s buf c
  | InLiteral kw position => step_literal (container_stack p) kw position c
  end.

(** Events emitted earlier come before those of the rest of the input. *)
Definition prepend (evs : list event) (r : step_result) : step_result :=
  '(evs', p) <- r ;; ok ((evs ++ evs')%list, p).

(** Modelled from the spec: [parser::feed] of [parser.hpp], as the events of
    one chunk and the state the parser is left in. *)
Fixpoint parser_feed (p : parser) (chunk : string) : step_result :=
  match chunk with
  | "" => ok ([], p)
  | String c chunk' =>
      '(evs, p') <- parser_step p c ;;
      prepend evs (parser_feed p' chunk')
  end.

(** ** Tree builder (dom.cpp, [dom_parser])

    [stack] holds pointers to values inside [doc].  A pointer is the path
    from [doc] to the value it addresses; reading and writing through it are
    [load] and [store].  The back of the vector is the head of the list. *)

Inductive selector : Type :=
| element (i : nat)
| member (k : string).

Definition pointer : Type := list selector.

Fixpoint list_replace {A} (i : nat) (x : A) (l : list A) : list A :=
  match l, i with
  | [], _ => []
  | _ :: l', 0 => x :: l'
  | y :: l', S i' => y :: list_replace i' x l'
  end.

Fixpoint map_replace (k : string) (x : value) (m : object_type) : object_type :=
  match m with
  | [] => []
  | (k', y) :: m' =>
      if String.eqb k k' then (k', x) :: m' else (k', y) :: map_replace k x m'
  end.

Fixpoint load (root : value) (p : pointer) : option value :=
  match p with
  | [] => Some root
  | element i :: p' =>
      match root with
      | VArray a => match nth_error a i with
                    | Some y => load y p'
                    | None => None
                    end
      | _ => None
      end
  | member k :: p' =>
      match root with
      | VObject m => match map_find k m with
                     | Some y => load y p'
                     | None => None
                     end
      | _ => None
      end
  end.

Fixpoint store (root : value) (p : pointer) (x : value) : option value :=
  match p with
  | [] => Some x
  | element i :: p' =>
      match root with
      | VArray a =>
          match nth_error a i with
          | Some y => match store y p' x with
                      | Some y' => Some (VArray (list_replace i y' a))
                      | None => None
                      end
          | None => None
          end
      | _ => None
      end
  | member k :: p' =>
      match root with
      | VObject m =>
          match map_find k m with
          | Some y => match store y p' x with
                      | Some y' => Some (VObject (map_replace k y' m))
                      | None => None
                      end
          | None => None
          end
      | _ => None
      end
  end.

Record dom_parser : Type := mk_dom_parser {
  base : parser;          (* the [parser] base class *)
  doc : value;
  key : string;
  stack : list pointer
}.

(** [value doc{type::array}], an empty key, [stack = {&this->doc}] *)
Definition dom_parser_init : dom_parser :=
  mk_dom_parser parser_init (value_of_type type_array) "" [[]].

(** The body shared by the handlers of the scalar events: the parsed value
    [x] is appended to the array at the back of the stack, or stored under
    the pending key of the object there, and the key is cleared. *)
Definition emplace (x : value) (d : dom_parser) : result dom_parser :=
  match stack d with
  | [] => throw assertion_failed
  | back :: _ =>
      match load (doc d) back with
      | Some (VArray a) =>
          match store (doc d) back (VArray (a ++ [x])) with
          | Some doc' => ok (mk_dom_parser (base d) doc' (key d) (stack d))
          | None => throw assertion_failed
          end
      | Some (VObject m) =>
          match store (doc d) back (VObject (map_insert (key d) x m)) with
          | Some doc' => ok (mk_dom_parser (base d) doc' "" (stack d))
          | None => throw assertion_failed
          end
      | _ => throw assertion_failed
      end
  end.

(** The body shared by [on_object_start] and [on_array_start]: as [emplace]
    with an empty container, whose address is then pushed. *)
Definition emplace_and_push (t : type) (d : dom_parser) : result dom_parser :=
  match stack d with
  | [] => throw assertion_failed
  | back :: _ =>
      match load (doc d) back with
      | Some (VArray a) =>
          match store (doc d) back (VArray (a ++ [value_of_type t])) with
          | Some doc' =>
              ok (mk_dom_parser (base d) doc' (key d)
                    ((back ++ [element (List.length a)])%list :: stack d))
          | None => throw assertion_failed
          end
      | Some (VObject m) =>
          match store (doc d) back
                  (VObject (map_insert (key d) (value_of_type t) m)) with
          | Some doc' =>
              ok (mk_dom_parser (base d) doc' ""
                    ((back ++ [member (key d)])%list :: stack d))
          | None => throw assertion_failed
          end
      | _ => throw assertion_failed
      end
  end.

(** [this->stack.pop_back()], the whole body of [on_object_end] and
    [on_array_end].  There is no [ASSERT] before it: on an empty vector the
    step is undefined. *)
Definition pop_back (d : dom_parser) : result dom_parser :=
  match stack d with
  | [] => throw undefined_behaviour
  | _ :: stack' => ok (mk_dom_parser (base d) (doc d) (key d) stack')
  end.

Definition on_object_start : dom_parser -> result dom_parser :=
  emplace_and_push type_object.
Definition on_object_end : dom_parser -> result dom_parser := pop_back.
Definition on_array_start : dom_parser -> result dom_parser :=
  emplace_and_push type_array.
Definition on_array_end : dom_parser -> result dom_parser := pop_back.
Definition on_key_parsed (str : string) (d : dom_parser) : result dom_parser :=
  ok (mk_dom_parser (base d) (doc d) str (stack d)).
Definition on_string_parsed (str : string) : dom_parser -> result dom_parser :=
  emplace (VString str).
Definition on_number_parsed (str : string) : dom_parser -> result dom_parser :=
  emplace (VNumber (mk_string_number str)).
Definition on_boolean_parsed (b : bool) : dom_parser -> result dom_parser :=
  emplace (VBoolean b).
Definition on_null_parsed : dom_parser -> result dom_parser :=
  emplace VNull.

(** The virtual call the parser makes for an event. *)
Definition notify (ev : event) : dom_parser -> result dom_parser :=
  match ev with
  | object_start => on_object_start
  | object_end => on_object_end
  | array_start => on_array_start
  | array_end => on_array_end
  | key_parsed str => on_key_parsed str
  | string_parsed str => on_string_parsed str
  | number_parsed str => on_number_parsed str
  | boolean_parsed b => on_boolean_parsed b
  | null_parsed => on_null_parsed
  end.

Fixpoint notify_all (evs : list event) (d : dom_parser) : result dom_parser :=
  match evs with
  | [] => ok d
  | ev :: evs' => d' <- notify ev d ;; notify_all evs' d'
  end.

(** [p.feed(chunk)]: each byte steps the parser, which calls the handlers
    for the events of that byte before it reads the next one. *)
Fixpoint feed (d : dom_parser) (chunk : string) : result dom_parser :=
  match chunk with
  | "" => ok d
  | String c chunk' =>
      '(evs, p') <- parser_step (base d) c ;;
      d' <- notify_all evs (mk_dom_parser p' (doc d) (key d) (stack d)) ;;
      feed d' chunk'
  end.

(** ** read (dom.cpp) *)

(** [size_t(utki::kilobyte) * 4] *)
Definition buf_size : nat := 4096.

(** What [read] returns once the input is exhausted. *)
Definition document (p : dom_parser) : result value :=
  if negb (Nat.eqb (List.length (stack p)) 1) then throw assertion_failed
  else if negb (is_ type_array (doc p)) then throw assertion_failed
  else
    a <- array (doc p) ;;
    match a with
    | [] => ok VNull
    | front :: _ => ok front
    end.

Section Reader.
Context {F : Type} `{file F}.

(** The [while (true)] loop; [fuel] bounds the number of buffers read and
    [None] means that it ran out. *)
Fixpoint read_loop (fuel : nat) (size : nat) (p : dom_parser) (fi : F)
  : option (F * result dom_parser) :=
  match fuel with
  | 0 => None
  | S fuel' =>
      match file_read size fi with
      | (fi', inl e) => Some (fi', inl e)
      | (fi', inr res) =>
          if negb (Nat.leb (String.length res) size) then
            Some (fi', throw assertion_failed)
          else if Nat.eqb (String.length res) 0 then Some (fi', ok p)
          else
            match feed p res with
            | inl e => Some (fi', inl e)
            | inr p' => read_loop fuel' size p' fi'
            end
      end
  end.

(** [jsondom::read(const papki::file&)] with buffers of [size] bytes. *)
Definition read_file (fuel : nat) (size : nat) (fi : F)
  : option (F * result value) :=
  match file_open mode_read fi with
  | (fi', inl e) => Some (fi', inl e)
  | (fi', inr _) =>
      match read_loop fuel size dom_parser_init fi' with
      | None => None
      | Some (fi'', r) => Some (file_close fi'', p <- r ;; document p)
      end
  end.
End Reader.

(** [jsondom::read(utki::span<const char>)]: a [span_file] over the data
    handed to [read(const papki::file&)].  One buffer per byte and one more
    for the end of the data is fuel enough ([read_span_terminates]). *)
Definition read_span (size : nat) (data : string) : result value :=
  match read_file (S (String.length data)) size (span_file data) with
  | Some (_, r) => r
  | None => throw assertion_failed
  end.

Definition read (data : string) : result value := read_span buf_size data.

(** [jsondom::read] of a C string: a null pointer reads as null, and
    [strlen] ends the text at the first zero byte. *)
Fixpoint strlen_prefix (str : string) : string :=
  match str with
  | "" => ""
  | String c str' =>
      if Ascii.eqb c "000" then "" else String c (strlen_prefix str')
  end.

Definition read_c_str (str : option string) : result value :=
  match str with
  | None => ok VNull
  | Some s => read (strlen_prefix s)
  end.

(** [jsondom::read(const std::string&)] *)
Definition read_std_string (str : string) : result value :=
  read_c_str (Some str).

(** ** Notions the properties are stated with *)

(** Single quotes stand for double quotes in the examples. *)
Fixpoint dq (s : string) : string :=
  match s with
  | "" => ""
  | String c s' => String (if Ascii.eqb c "'" then "034"%char else c) (dq s')
  end.

(** The events of the text of a value. *)
Fixpoint events_of (v : value) : list event :=
  match v with
  | VNull => [null_parsed]
  | VBoolean b => [boolean_parsed b]
  | VNumber n => [number_parsed (get_string n)]
  | VString s => [string_parsed s]
  | VArray a => array_start :: flat_map events_of a ++ [array_end]
  | VObject m =>
      object_start ::
      flat_map (fun kx => key_parsed (fst kx) :: events_of (snd kx)) m ++
      [object_end]
  end%list.

(** The map a member list builds, in the order and with the repetitions of
    the input: members are inserted first to last. *)
Definition map_of_members (members : list (string * value)) (m : object_type)
  : object_type :=
  fold_left (fun acc kx => map_insert (fst kx) (snd kx) acc) members m.

(** The tree the input of a raw tree stands for. *)
Fixpoint normalize (v : value) : value :=
  match v with
  | VArray a => VArray (List.map normalize a)
  | VObject m =>
      VObject
        (map_of_members (List.map (fun kx => (fst kx, normalize (snd kx))) m) [])
  | _ => v
  end.

(** Every number in the tree matches the number grammar. *)
Fixpoint numbers_valid (v : value) : bool :=
  match v with
  | VNumber n => number_grammar (get_string n)
  | VArray a => forallb numbers_valid a
  | VObject m => forallb (fun kx => numbers_valid (snd kx)) m
  | _ => true
  end.

(** Every object in the tree has strictly ascending keys. *)
Fixpoint maps_sorted (v : value) : bool :=
  match v with
  | VArray a => forallb maps_sorted a
  | VObject m => map_sorted m && forallb (fun kx => maps_sorted (snd kx)) m
  | _ => true
  end.

(** The invariants of the data model: a tree the program can hold. *)
Definition well_formed (v : value) : bool := maps_sorted v && numbers_valid v.


Fixpoint feed_chunks (d : dom_parser) (chunks : list string) : result dom_parser :=
  match chunks with
  | [] => ok d
  | chunk :: chunks' => d' <- feed d chunk ;; feed_chunks d' chunks'
  end.

Definition concat_chunks (chunks : list string) : string :=
  fold_right String.append "" chunks.


(** The value of the last member with key [k] in a member list. *)
Fixpoint find_last (k : string) (members : list (string * value)) : option value :=
  match members with
  | [] => None
  | (k', x) :: members' =>
      match find_last k members' with
      | Some y => Some y
      | None => if String.eqb k k' then Some x else None
      end
  end.

(** The characters [escape_string] has a [case] for. *)
Definition escaped_characters : list ascii :=
  ["034"; "\"; "/"; "008"; "012"; "010"; "013"; "009"]%char.

(** What the in-memory file holds after [s] was written to it. *)
Definition written (fi : vector_file) (s : string) : vector_file :=
  mk_vector_file (vf_data fi ++ s) (vf_pos fi + String.length s) (vf_is_open fi).

(** The container [c] once the value [x] is attached to it, under the
    pending [key] if it is an object, and where in it the value then is. *)
Definition attach (c : value) (key : string) (x : value) : value :=
  match c with
  | VArray a => VArray (a ++ [x])%list
  | VObject m => VObject (map_insert key x m)
  | _ => c
  end.

Definition child (c : value) (key : string) : selector :=
  match c with
  | VArray a => element (List.length a)
  | _ => member key
  end.

Definition is_container (c : value) : bool :=
  match c with
  | VArray _ | VObject _ => true
  | _ => false
  end.

(** The key buffer is empty while the open container is an array. *)
Definition key_idle (c : value) (key : string) : Prop :=
  match c with
  | VArray _ => key = ""
  | _ => True
  end.

(** The events of [t] attach [t] to the container on top of the stack and
    leave the stack as it was. *)
Definition builds (t : value) : Prop :=
  forall p root key back rest c,
    load root back = Some c -> is_container c = true -> key_idle c key ->
    exists root',
      store root back (attach c key (normalize t)) = Some root' /\
      notify_all (events_of t) (mk_dom_parser p root key (back :: rest)) =
      ok (mk_dom_parser p root' "" (back :: rest)).


(** The parser is between tokens and the next token must begin a value. *)
Definition expects_value (stack : list container_state) : bool :=
  match stack with
  | []
  | InArray ArrayExpectingValueOrEnd :: _
  | InArray ArrayExpectingValue :: _
  | InObject ObjectExpectingValue :: _ => true
  | _ => false
  end.

(** The text goes on with a byte that no number can go on with. *)
Definition delimited (rest : string) : Prop :=
  match rest with
  | "" => False
  | String c _ => forall s, number_continue s c = None
  end.

(** The parser reads the text of [t], whatever follows it, as the events of
    [t]; the text of a number has to be followed by a delimiter. *)
Definition parses (t : value) : Prop :=
  numbers_valid t = true ->
  forall stack rest,
    expects_value stack = true ->
    (get_type t = type_number -> delimited rest) ->
    parser_feed (mk_parser stack BetweenTokens) (json_text t ++ rest) =
    prepend (events_of t)
      (parser_feed (mk_parser (value_done stack) BetweenTokens) rest).

(** The parser state of a [dom_parser] replaced. *)
Definition with_base (p : parser) (d : dom_parser) : dom_parser :=
  mk_dom_parser p (doc d) (key d) (stack d).

(** Texts joined by a separator, in the order of the list. *)
Fixpoint join (separator : string) (l : list string) : string :=
  match l with
  | [] => ""
  | [s] => s
  | s :: l' => s ++ separator ++ join separator l'
  end.

Definition member_text (kx : string * value) : string :=
  double_quote ++ escape_string (fst kx) ++ double_quote_and_colon ++
  json_text (snd kx).

(** Trees and texts the examples use. *)
Definition number_of (text : string) : value := VNumber (mk_string_number text).

Definition example_document : value :=
  VObject
    [("a", VArray [number_of "1"; VString (dq "x'/\y"); VNull]);
     ("b", VObject [("c", VBoolean true); ("d", number_of "-2.50e+3")])].

Definition example_members : list (string * value) :=
  [("a", number_of "1"); ("b", VArray []); ("a", number_of "2")].

(** ** Further notions *)

(** dom.hpp, [is_null] to [is_object] *)
Definition is_null (v : value) : bool := is_ type_null v.
Definition is_boolean (v : value) : bool := is_ type_boolean v.
Definition is_number (v : value) : bool := is_ type_number v.
Definition is_string (v : value) : bool := is_ type_string v.
Definition is_array (v : value) : bool := is_ type_array v.
Definition is_object (v : value) : bool := is_ type_object v.

(** The second byte of the two-byte escapes [escape_string] produces. *)
Definition is_escape_letter (c : ascii) : bool :=
  match c with
  | "034"%char | "\"%char | "/"%char | "b"%char | "f"%char
  | "n"%char | "r"%char | "t"%char => true
  | _ => false
  end.

Definition is_escaped_character (c : ascii) : bool :=
  match c with
  | "034"%char | "\"%char | "/"%char | "008"%char | "012"%char
  | "010"%char | "013"%char | "009"%char => true
  | _ => false
  end.

(** A text made of two-byte escapes, a backslash and an escape letter, and
    of bytes [escape_string] has no [case] for. *)
Fixpoint well_escaped (s : string) : bool :=
  match s with
  | "" => true
  | String c s' =>
      match c, s' with
      | "\"%char, String x s'' => is_escape_letter x && well_escaped s''
      | "\"%char, "" => false
      | _, _ => negb (is_escaped_character c) && well_escaped s'
      end
  end.

(** No byte of the text is zero. *)
Fixpoint zero_free (s : string) : bool :=
  match s with
  | "" => true
  | String c s' => negb (Ascii.eqb c "000") && zero_free s'
  end.

(** The error [e] is one a write to the file can produce. *)
Definition write_can_fail {F : Type} `{file F} (e : error) : Prop :=
  exists s fi, snd (file_write s fi) = inl e.

Definition open_can_fail {F : Type} `{file F} (e : error) : Prop :=
  exists fi, snd (file_open mode_create fi) = inl e.

(** The pointers on the stack are nested: the bottom one is [&doc] and each
    one above addresses a child of the value addressed by the one below. *)
Fixpoint stack_chain (stack : list pointer) : Prop :=
  match stack with
  | [] => True
  | p :: rest =>
      match rest with
      | [] => p = []
      | q :: _ => (exists sel, p = (q ++ [sel])%list) /\ stack_chain rest
      end
  end.

Definition points_to_container (root : value) (p : pointer) : Prop :=
  exists c, load root p = Some c /\ is_container c = true.

(** Every pointer on the stack is valid and addresses an array or an
    object of the document. *)
Definition stack_valid (d : dom_parser) : Prop :=
  stack_chain (stack d) /\ Forall (points_to_container (doc d)) (stack d).

(** The size of the stack after the handlers of [evs] ran from a stack of
    [depth] pointers, or [None] when a handler would ask for the back of an
    empty stack or pop an empty stack. *)
Fixpoint depth_after (depth : nat) (evs : list event) : option nat :=
  match evs with
  | [] => Some depth
  | ev :: evs' =>
      match ev with
      | key_parsed _ => depth_after depth evs'
      | object_start | array_start =>
          if Nat.eqb depth 0 then None else depth_after (S depth) evs'
      | object_end | array_end =>
          if Nat.eqb depth 0 then None else depth_after (Nat.pred depth) evs'
      | _ => if Nat.eqb depth 0 then None else depth_after depth evs'
      end
  end.

Definition selector_eqb (a b : selector) : bool :=
  match a, b with
  | element i, element j => Nat.eqb i j
  | member k, member k' => String.eqb k k'
  | _, _ => false
  end.

(** The two pointers part ways: at the first place where they differ both
    go on, into different children. *)
Fixpoint diverge (p q : pointer) : bool :=
  match p, q with
  | a :: p', b :: q' => if selector_eqb a b then diverge p' q' else true
  | _, _ => false
  end.

(** Backspace, tab, newline, form feed and carriage return. *)
Definition is_layout_character (c : ascii) : bool :=
  match c with
  | "008"%char | "009"%char | "010"%char | "012"%char | "013"%char => true
  | _ => false
  end.

(** The text holds none of these bytes. *)
Fixpoint layout_free (s : string) : bool :=
  match s with
  | "" => true
  | String c s' => negb (is_layout_character c) && layout_free s'
  end.

(** No number literal of the tree holds one. *)
Fixpoint numbers_layout_free (v : value) : bool :=
  match v with
  | VNumber n => layout_free (get_string n)
  | VArray a => forallb numbers_layout_free a
  | VObject m => forallb (fun kx => numbers_layout_free (snd kx)) m
  | _ => true
  end.

(** *** A file that records what is done to it

    An implementation of the file interface for stating what [read] and
    [write] do to a file: it delivers the chunks of [pending] one per
    read, whatever the size asked for, then nothing, and logs every
    operation. *)
Inductive file_operation : Type :=
| op_open (m : mode)
| op_write (s : string)
| op_read (size : nat)
| op_close.

Record scripted_file : Type := mk_scripted_file {
  pending : list string;
  log : list file_operation
}.

Definition logged (op : file_operation) (fi : scripted_file) : scripted_file :=
  mk_scripted_file (pending fi) (log fi ++ [op]).

Definition scripted_read (size : nat) : io scripted_file string :=
  fun fi =>
    match pending fi with
    | [] => (logged (op_read size) fi, ok "")
    | chunk :: rest =>
        (mk_scripted_file rest (log fi ++ [op_read size]), ok chunk)
    end.

#[export] Instance scripted_file_file : file scripted_file := {
  file_open := fun m fi => (logged (op_open m) fi, ok tt);
  file_close := logged op_close;
  file_write := fun s fi => (logged (op_write s) fi, ok tt);
  file_read := scripted_read
}.

(** What the lemmas below say of a piece of the serializer [body] whose
    text is [text]: it only appends writes to the log, and the writes put
    together are the text. *)
Definition writes_text (body : io scripted_file unit) (text : string) : Prop :=
  forall fi, exists pieces,
    body fi =
    (mk_scripted_file (pending fi) (log fi ++ List.map op_write pieces), ok tt) /\
    concat_chunks pieces = text.

(** A builder inside the second element of the wrapper array. *)
Definition example_builder : dom_parser :=
  mk_dom_parser parser_init
    (VArray [VObject [("a", number_of "1")]; VArray [VNull]]) ""
    [[element 1]; []].

(** The events whose handlers begin with [ASSERT(!this->stack.empty())]. *)
Definition asserts_stack (ev : event) : bool :=
  match ev with
  | object_end | array_end | key_parsed _ => false
  | _ => true
  end.

(** * Properties *)

Lemma bind_ok {A B} (a : A) (k : A -> result B) : bind (ok a) k = k a.
Proof. reflexivity. Qed.

(** ** Accessors *)

Lemma type_eqb_eq (a b : type) : type_eqb a b = true <-> a = b.
Proof. destruct a, b; simpl; split; (reflexivity || discriminate). Qed.

Lemma access_error_message_inj (k1 a1 k2 a2 : type) :
  access_error_message k1 a1 = access_error_message k2 a2 -> k1 = k2 /\ a1 = a2.
Proof.
  destruct k1, k2; try (cbv; discriminate);
    destruct a1, a2; cbv; intro H; try discriminate H; split; reflexivity.
Qed.

(** C7. Each typed accessor, read-only or mutable, succeeds exactly when the
    value's kind is the accessor's kind, and otherwise fails with
    [unexpected_value_type] whose message names the requested and the stored
    kind (and the message determines both). *)
Theorem accessors_wrong_type (v : value) :
  wrong_type_exactly type_boolean v (boolean v) /\
  wrong_type_exactly type_number v (number v) /\
  wrong_type_exactly type_string v (string_ v) /\
  wrong_type_exactly type_array v (array v) /\
  wrong_type_exactly type_object v (object v) /\
  wrong_type_exactly type_boolean v (boolean_ref v) /\
  wrong_type_exactly type_number v (number_ref v) /\
  wrong_type_exactly type_string v (string_ref v) /\
  wrong_type_exactly type_array v (array_ref v) /\
  wrong_type_exactly type_object v (object_ref v) /\
  (forall k1 a1 k2 a2,
      access_error_message k1 a1 = access_error_message k2 a2 ->
      k1 = k2 /\ a1 = a2).
Proof.
  unfold wrong_type_exactly, succeeds, fails_with.
  repeat match goal with |- _ /\ _ => split end;
    try exact access_error_message_inj;
    destruct v; cbn; split; intro H;
    try reflexivity; try discriminate H; try congruence;
    try (now destruct H; discriminate);
    try (now eexists; reflexivity).
Qed.

(** ** Text *)

Lemma append_nil_r (s : string) : s ++ "" = s.
Proof. induction s as [|c s IH]; simpl; [reflexivity | now rewrite IH]. Qed.

Lemma append_assoc (s1 s2 s3 : string) : (s1 ++ s2) ++ s3 = s1 ++ (s2 ++ s3).
Proof. induction s1 as [|c s1 IH]; simpl; [reflexivity | now rewrite IH]. Qed.

Lemma length_append (s1 s2 : string) :
  String.length (s1 ++ s2) = String.length s1 + String.length s2.
Proof. induction s1 as [|c s1 IH]; simpl; [reflexivity | now rewrite IH]. Qed.

Lemma append_char_cons (buf : string) (c : ascii) (s : string) :
  append_char buf c ++ s = buf ++ String c s.
Proof. unfold append_char. now rewrite append_assoc. Qed.

(** ** Escaping *)

Lemma escape_string_loop_acc (str ss : string) :
  escape_string_loop str ss = ss ++ escape_string_loop str "".
Proof.
  revert ss. induction str as [|c str IH]; intro ss; simpl.
  - now rewrite append_nil_r.
  - rewrite IH, (IH (escape_char c)). now rewrite append_assoc.
Qed.

Lemma escape_string_cons (c : ascii) (str : string) :
  escape_string (String c str) = escape_char c ++ escape_string str.
Proof. unfold escape_string. simpl. apply escape_string_loop_acc. Qed.

Lemma escape_string_app (s1 s2 : string) :
  escape_string (s1 ++ s2) = escape_string s1 ++ escape_string s2.
Proof.
  induction s1 as [|c s1 IH]; [reflexivity|].
  simpl. now rewrite !escape_string_cons, IH, append_assoc.
Qed.

Lemma escape_char_other (c : ascii) :
  ~ In c escaped_characters -> escape_char c = String c "".
Proof.
  intro Hc.
  destruct c as [[] [] [] [] [] [] [] []]; try reflexivity;
    exfalso; apply Hc; simpl; tauto.
Qed.

Lemma escape_char_changes (c : ascii) :
  In c escaped_characters -> escape_char c <> String c "".
Proof.
  simpl. intros [<-|[<-|[<-|[<-|[<-|[<-|[<-|[<-|[]]]]]]]]]; discriminate.
Qed.

Lemma in_escaped_characters_dec (c : ascii) :
  {In c escaped_characters} + {~ In c escaped_characters}.
Proof. apply in_dec, ascii_dec. Qed.

(** C8. [escape_string] works byte by byte; the quote, the backslash, the
    slash, backspace, form feed, newline, carriage return and tab become a
    backslash and a letter, and these eight are the only bytes it changes:
    every other byte, those of multi-byte sequences included, is copied. *)
Theorem escape_string_exactly_eight :
  (forall s1 s2, escape_string (s1 ++ s2) = escape_string s1 ++ escape_string s2) /\
  escape_string "" = "" /\
  escape_string (String "034" "") = String "\" (String "034" "") /\
  escape_string "\" = "\\" /\
  escape_string "/" = "\/" /\
  escape_string (String "008" "") = "\b" /\
  escape_string (String "012" "") = "\f" /\
  escape_string (String "010" "") = "\n" /\
  escape_string (String "013" "") = "\r" /\
  escape_string (String "009" "") = "\t" /\
  (forall c, escape_string (String c "") <> String c "" <->
             In c escaped_characters) /\
  (forall s, (forall c, In c (list_ascii_of_string s) ->
                        ~ In c escaped_characters) ->
             escape_string s = s).
Proof.
  split; [exact escape_string_app|].
  repeat (split; [reflexivity|]).
  split.
  - intro c. rewrite escape_string_cons. change (escape_string "") with "".
    rewrite append_nil_r. split.
    + intro Hne. destruct (in_escaped_characters_dec c) as [Hin|Hnot];
        [exact Hin | now apply escape_char_other in Hnot].
    + apply escape_char_changes.
  - induction s as [|c s IH]; intro Hs; [reflexivity|].
    rewrite escape_string_cons, escape_char_other, IH.
    + reflexivity.
    + intros c' Hc'. apply Hs. simpl. now right.
    + apply Hs. simpl. now left.
Qed.

(** ** Serializer *)

Lemma written_nil (fi : vector_file) : written fi "" = fi.
Proof.
  destruct fi as [data pos is_open]. unfold written. simpl.
  now rewrite append_nil_r, Nat.add_0_r.
Qed.

Lemma written_written (fi : vector_file) (s1 s2 : string) :
  written (written fi s1) s2 = written fi (s1 ++ s2).
Proof.
  unfold written. simpl.
  now rewrite append_assoc, length_append, Nat.add_assoc.
Qed.

Lemma file_write_vector_file (s : string) (fi : vector_file) :
  file_write s fi = (written fi s, ok tt).
Proof. reflexivity. Qed.

Lemma write_elements_vector_file (a : list value) :
  Forall (fun x => forall fi, write_internal x fi = (written fi (json_text x), ok tt)) a ->
  forall at_begin fi,
    write_elements write_internal at_begin a fi =
    (written fi (json_elements json_text at_begin a), ok tt).
Proof.
  induction 1 as [|x a Hx _ IH]; intros at_begin fi; simpl.
  - now rewrite written_nil.
  - unfold io_bind.
    destruct at_begin; unfold io_ret; rewrite ?file_write_vector_file;
      rewrite Hx, IH, !written_written; reflexivity.
Qed.

Lemma write_members_vector_file (m : list (string * value)) :
  Forall (fun kx => forall fi,
            write_internal (snd kx) fi = (written fi (json_text (snd kx)), ok tt)) m ->
  forall at_begin fi,
    write_members write_internal at_begin m fi =
    (written fi (json_members json_text at_begin m), ok tt).
Proof.
  induction 1 as [|[k x] m Hx _ IH]; intros at_begin fi; simpl in *.
  - now rewrite written_nil.
  - unfold io_bind.
    destruct at_begin; unfold io_ret; rewrite !file_write_vector_file;
      rewrite Hx, IH, !written_written, ?append_assoc; reflexivity.
Qed.

Lemma write_internal_vector_file (v : value) (fi : vector_file) :
  write_internal v fi = (written fi (json_text v), ok tt).
Proof.
  revert fi.
  induction v as [| b | n | s | m IHm | a IHa] using value_tree_ind; intro fi;
    try reflexivity.
  - destruct b; reflexivity.
  - simpl. unfold io_bind. rewrite !file_write_vector_file, !written_written.
    now rewrite append_assoc.
  - simpl. unfold io_bind.
    rewrite file_write_vector_file, (write_members_vector_file m IHm).
    rewrite file_write_vector_file, !written_written. now rewrite append_assoc.
  - simpl. unfold io_bind.
    rewrite file_write_vector_file, (write_elements_vector_file a IHa).
    rewrite file_write_vector_file, !written_written. now rewrite append_assoc.
Qed.

Lemma get_type_object (v : value) :
  get_type v = type_object -> exists m, v = VObject m.
Proof. destruct v; try discriminate. intros _. now eexists. Qed.

Lemma is_object_false (v : value) :
  get_type v <> type_object -> is_ type_object v = false.
Proof. destruct v; try reflexivity. intro Hne. now contradiction Hne. Qed.

Lemma write_vector_file_object (m : object_type) (fi : vector_file) :
  write (VObject m) fi =
  (mk_vector_file (json_text (VObject m)) (String.length (json_text (VObject m))) false,
   ok tt).
Proof.
  unfold write, with_guard.
  change (is_ type_object (VObject m)) with true. cbv beta iota delta [negb].
  change (file_open mode_create fi) with (mk_vector_file "" 0 true, @ok unit tt).
  cbv beta iota. rewrite write_internal_vector_file. reflexivity.
Qed.

Lemma to_string_object (m : object_type) :
  to_string (VObject m) = ok (json_text (VObject m)).
Proof. unfold to_string. now rewrite write_vector_file_object. Qed.

Lemma to_string_not_object (v : value) :
  get_type v <> type_object -> to_string v = throw invalid_root.
Proof.
  intro Hne. unfold to_string, write. now rewrite (is_object_false v Hne).
Qed.

Section AnySink.
Context {F : Type} `{file F}.

Lemma write_not_object (v : value) (fi : F) :
  get_type v <> type_object -> write v fi = (fi, throw invalid_root).
Proof. intro Hne. unfold write. now rewrite (is_object_false v Hne). Qed.

Lemma write_internal_reliable (v : value) :
  reliable -> forall fi : F, snd (write_internal v fi) = ok tt.
Proof.
  intros [_ Hwrite].
  assert (Hseq : forall (m1 m2 : io F unit),
             (forall fi, snd (m1 fi) = ok tt) ->
             (forall fi, snd (m2 fi) = ok tt) ->
             forall fi, snd (io_bind m1 (fun _ => m2) fi) = ok tt).
  { intros m1 m2 H1 H2 fi. unfold io_bind. specialize (H1 fi).
    destruct (m1 fi) as [fi' [e|[]]]; simpl in H1; [discriminate | apply H2]. }
  induction v as [| b | n | s | m IHm | a IHa] using value_tree_ind;
    simpl; try (intro fi; apply Hwrite).
  - destruct b; intro fi; apply Hwrite.
  - repeat apply Hseq; auto.
  - apply Hseq; [auto|]. apply Hseq; [|auto].
    generalize true.
    induction IHm as [|[k x] m Hx _ IH]; intro at_begin; simpl.
    + reflexivity.
    + repeat apply Hseq; auto. destruct at_begin; [reflexivity | auto].
  - apply Hseq; [auto|]. apply Hseq; [|auto].
    generalize true.
    induction IHa as [|x a Hx _ IH]; intro at_begin; simpl.
    + reflexivity.
    + repeat apply Hseq; auto. destruct at_begin; [reflexivity | auto].
Qed.

Lemma write_object_reliable (v : value) (fi : F) :
  reliable -> get_type v = type_object -> snd (write v fi) = ok tt.
Proof.
  intros Hrel Hobj. destruct (get_type_object v Hobj) as [m ->].
  unfold write, with_guard.
  change (is_ type_object (VObject m)) with true. cbv beta iota delta [negb].
  pose proof (proj1 Hrel mode_create fi) as Hopen.
  destruct (file_open mode_create fi) as [fi' [e|[]]]; simpl in Hopen;
    [discriminate|].
  pose proof (write_internal_reliable (VObject m) Hrel fi') as Hw.
  destruct (write_internal (VObject m) fi') as [fi'' r]. exact Hw.
Qed.
End AnySink.

Lemma vector_file_reliable : @reliable vector_file _.
Proof. split; [intros [] fi | intros s fi]; reflexivity. Qed.

(** C10. With a root that is not an object, [write] throws before the guard
    is constructed: whatever the file is, it is returned as it was given,
    neither opened nor truncated nor written. *)
Theorem write_invalid_root_leaves_sink (F : Type) (file_F : file F)
    (v : value) (fi : F) :
  get_type v <> type_object ->
  write v fi = (fi, throw invalid_root).
Proof. apply write_not_object. Qed.

Lemma write_invalid_root_leaves_sink_witness :
  get_type (VNumber (mk_string_number "42")) <> type_object /\
  write (VNumber (mk_string_number "42")) (mk_vector_file "kept" 4 false) =
  (mk_vector_file "kept" 4 false, throw invalid_root).
Proof.
  split; [discriminate|].
  apply (write_invalid_root_leaves_sink vector_file _); discriminate.
Defined.

(** ** Chunks *)

Lemma prepend_nil (r : step_result) : prepend [] r = r.
Proof. destruct r as [e|[evs p]]; reflexivity. Qed.

Lemma prepend_prepend (evs1 evs2 : list event) (r : step_result) :
  prepend evs1 (prepend evs2 r) = prepend (evs1 ++ evs2)%list r.
Proof.
  destruct r as [e|[evs p]]; simpl; [reflexivity|].
  unfold ok. now rewrite app_assoc.
Qed.


Lemma feed_app (d : dom_parser) (s1 s2 : string) :
  feed d (s1 ++ s2) = (d' <- feed d s1 ;; feed d' s2).
Proof.
  revert d. induction s1 as [|c s1 IH]; intro d; simpl; [reflexivity|].
  destruct (parser_step (base d) c) as [e|[evs p']]; simpl; [reflexivity|].
  destruct (notify_all evs _) as [e|d']; simpl; [reflexivity | apply IH].
Qed.


Lemma feed_chunks_concat (chunks : list string) (d : dom_parser) :
  feed_chunks d chunks = feed d (concat_chunks chunks).
Proof.
  revert d. induction chunks as [|chunk chunks IH]; intro d; simpl;
    [reflexivity|].
  rewrite feed_app. destruct (feed d chunk) as [e|d']; simpl;
    [reflexivity | apply IH].
Qed.


(** *** The loop of [read] over an in-memory file *)

Lemma string_take_drop (n : nat) (s : string) :
  string_take n s ++ string_drop n s = s.
Proof.
  revert s. induction n as [|n IH]; intros [|c s]; simpl; try reflexivity.
  now rewrite IH.
Qed.

Lemma length_string_take (n : nat) (s : string) :
  String.length (string_take n s) <= n.
Proof.
  revert s. induction n as [|n IH]; intros [|c s]; simpl; try lia.
  specialize (IH s). lia.
Qed.

Lemma length_string_drop (n : nat) (s : string) :
  s <> "" -> String.length (string_drop (S n) s) < String.length s.
Proof.
  intro Hs. destruct s as [|c s]; [congruence|]. simpl. clear Hs.
  revert s. induction n as [|n IH]; intros [|c' s]; simpl; try lia.
  specialize (IH s). lia.
Qed.

Lemma string_drop_app_length (s1 s2 : string) :
  string_drop (String.length s1) (s1 ++ s2) = s2.
Proof.
  induction s1 as [|c s1 IH]; simpl; [now destruct s2 | exact IH].
Qed.

Lemma read_loop_unfold {F : Type} `{file F} (fuel size : nat)
    (p : dom_parser) (fi : F) :
  read_loop (S fuel) size p fi =
  match file_read size fi with
  | (fi', inl e) => Some (fi', inl e)
  | (fi', inr res) =>
      if negb (Nat.leb (String.length res) size) then
        Some (fi', throw assertion_failed)
      else if Nat.eqb (String.length res) 0 then Some (fi', ok p)
      else
        match feed p res with
        | inl e => Some (fi', inl e)
        | inr p' => read_loop fuel size p' fi'
        end
  end.
Proof. reflexivity. Qed.

Lemma file_read_vector_file (size : nat) (fi : vector_file) :
  file_read size fi =
  (mk_vector_file (vf_data fi)
     (vf_pos fi + String.length (string_take size (string_drop (vf_pos fi) (vf_data fi))))
     (vf_is_open fi),
   ok (string_take size (string_drop (vf_pos fi) (vf_data fi)))).
Proof. reflexivity. Qed.

Lemma read_loop_vector_file (n : nat) (fuel : nat) :
  forall (rest consumed : string) (p : dom_parser),
    String.length rest < fuel ->
    exists fi',
      read_loop fuel (S n) p
        (mk_vector_file (consumed ++ rest) (String.length consumed) true) =
      Some (fi', feed p rest).
Proof.
  induction fuel as [|fuel IH]; intros rest consumed p Hfuel; [lia|].
  rewrite read_loop_unfold, file_read_vector_file.
  cbn [vf_data vf_pos vf_is_open].
  rewrite string_drop_app_length.
  pose proof (length_string_take (S n) rest) as Hlen.
  apply Nat.leb_le in Hlen. unfold ok. cbv beta iota.
  rewrite Hlen. cbv beta iota delta [negb].
  destruct rest as [|c rest]; [eexists; reflexivity|].
  remember (String c rest) as text eqn:Htext in *.
  assert (Hne : text <> "") by (subst; discriminate).
  replace (String.length (string_take (S n) text) =? 0)%nat with false
    by (subst; reflexivity).
  assert (Hfeed : feed p text =
                  (d' <- feed p (string_take (S n) text) ;;
                   feed d' (string_drop (S n) text)))
    by (now rewrite <- feed_app, string_take_drop).
  rewrite Hfeed.
  destruct (feed p (string_take (S n) text)) as [e|p']; simpl bind;
    [eexists; reflexivity|].
  replace (consumed ++ text)
    with ((consumed ++ string_take (S n) text) ++ string_drop (S n) text)
    by (now rewrite append_assoc, string_take_drop).
  rewrite <- length_append.
  apply IH. pose proof (length_string_drop n text Hne) as Hdrop.
  cbn [string_drop] in Hdrop |- *. lia.
Qed.

Lemma read_span_feed (n : nat) (data : string) :
  read_span (S n) data = (p <- feed dom_parser_init data ;; document p).
Proof.
  unfold read_span, read_file, span_file.
  cbn [file_open vector_file_file vector_file_open vf_data].
  destruct (read_loop_vector_file n (S (String.length data)) data ""
              dom_parser_init (Nat.lt_succ_diag_r _)) as [fi' Hloop].
  simpl String.append in Hloop. simpl String.length in Hloop at 2.
  now rewrite Hloop.
Qed.

(** [read] ends: the fuel of [read_span] is never used up. *)
Lemma read_span_terminates (n : nat) (data : string) :
  exists fi r,
    read_file (S (String.length data)) (S n) (span_file data) = Some (fi, r).
Proof.
  unfold read_file, span_file.
  cbn [file_open vector_file_file vector_file_open vf_data].
  destruct (read_loop_vector_file n (S (String.length data)) data ""
              dom_parser_init (Nat.lt_succ_diag_r _)) as [fi' Hloop].
  simpl String.append in Hloop. simpl String.length in Hloop at 2.
  rewrite Hloop. do 2 eexists; reflexivity.
Qed.

Lemma read_feed (data : string) :
  read data = (p <- feed dom_parser_init data ;; document p).
Proof. apply (read_span_feed 4095). Qed.

(** ** The ordered map *)

Lemma compare_refl (k : string) : String.compare k k = Eq.
Proof. now apply String_as_OT.cmp_eq. Qed.

Lemma compare_Eq (k k' : string) : String.compare k k' = Eq -> k = k'.
Proof. apply String_as_OT.cmp_eq. Qed.

Lemma compare_Lt_neq (k k' : string) : String.compare k k' = Lt -> k <> k'.
Proof. intros Hlt ->. now rewrite compare_refl in Hlt. Qed.

Lemma compare_Gt_neq (k k' : string) : String.compare k k' = Gt -> k <> k'.
Proof. intros Hgt ->. now rewrite compare_refl in Hgt. Qed.

Lemma compare_Gt_Lt (k k' : string) :
  String.compare k k' = Gt <-> String.compare k' k = Lt.
Proof.
  rewrite (String.compare_antisym k' k).
  destruct (String.compare k k'); simpl; split; congruence.
Qed.

Lemma compare_Lt_trans (a b c : string) :
  String.compare a b = Lt -> String.compare b c = Lt -> String.compare a c = Lt.
Proof.
  intros Hab Hbc. apply String_as_OT.cmp_lt.
  apply String_as_OT.lt_trans with b; now apply String_as_OT.cmp_lt.
Qed.

Lemma ltb_Lt (a b : string) : String.ltb a b = true <-> String.compare a b = Lt.
Proof. unfold String.ltb. destruct (String.compare a b); split; congruence. Qed.

Lemma eqb_false_of_neq (k k' : string) : k <> k' -> String.eqb k k' = false.
Proof. apply String.eqb_neq. Qed.

Lemma map_find_insert_same (k : string) (x : value) (m : object_type) :
  map_find k (map_insert k x m) = Some x.
Proof.
  induction m as [|[k' x'] m IH]; simpl.
  - now rewrite String.eqb_refl.
  - destruct (String.compare k k') eqn:Hcmp; simpl.
    + now rewrite String.eqb_refl.
    + now rewrite String.eqb_refl.
    + now rewrite (eqb_false_of_neq _ _ (compare_Gt_neq _ _ Hcmp)).
Qed.

Lemma map_find_insert_other (k k' : string) (x : value) (m : object_type) :
  k <> k' -> map_find k (map_insert k' x m) = map_find k m.
Proof.
  intro Hne. induction m as [|[k0 x0] m IH]; simpl.
  - now rewrite (eqb_false_of_neq _ _ Hne).
  - destruct (String.compare k' k0) eqn:Hcmp; simpl.
    + apply compare_Eq in Hcmp. subst k0.
      now rewrite (eqb_false_of_neq _ _ Hne).
    + now rewrite (eqb_false_of_neq _ _ Hne).
    + now rewrite IH.
Qed.

Lemma map_replace_insert (k : string) (x y : value) (m : object_type) :
  map_replace k y (map_insert k x m) = map_insert k y m.
Proof.
  induction m as [|[k' x'] m IH]; simpl.
  - now rewrite String.eqb_refl.
  - destruct (String.compare k k') eqn:Hcmp; simpl.
    + now rewrite String.eqb_refl.
    + now rewrite String.eqb_refl.
    + now rewrite (eqb_false_of_neq _ _ (compare_Gt_neq _ _ Hcmp)), IH.
Qed.

Lemma map_replace_replace (k : string) (x y : value) (m : object_type) :
  map_replace k y (map_replace k x m) = map_replace k y m.
Proof.
  induction m as [|[k' x'] m IH]; simpl; [reflexivity|].
  destruct (String.eqb k k') eqn:Heq; simpl; rewrite Heq; [reflexivity|].
  now rewrite IH.
Qed.

Lemma map_find_replace (k : string) (x z : value) (m : object_type) :
  map_find k m = Some z -> map_find k (map_replace k x m) = Some x.
Proof.
  induction m as [|[k' x'] m IH]; simpl; [discriminate|].
  destruct (String.eqb k k') eqn:Heq; simpl; rewrite Heq; auto.
Qed.

(** Every key behind the first is above it. *)
Lemma map_sorted_above (k : string) (x : value) (m : object_type) :
  map_sorted ((k, x) :: m) = true ->
  forall k' x', In (k', x') m -> String.compare k k' = Lt.
Proof.
  revert k x. induction m as [|[k0 x0] m IH]; intros k x Hs k' x' Hin;
    [contradiction|].
  simpl in Hs. apply andb_true_iff in Hs as [Hk Hs].
  apply ltb_Lt in Hk. destruct Hin as [Heq|Hin].
  - now inversion Heq; subst.
  - apply compare_Lt_trans with k0; [exact Hk|].
    now apply (IH k0 x0 Hs k' x').
Qed.

Lemma map_sorted_tail (kx : string * value) (m : object_type) :
  map_sorted (kx :: m) = true -> map_sorted m = true.
Proof. destruct kx. simpl. intro Hs. now apply andb_true_iff in Hs. Qed.

Lemma map_find_In (k : string) (x : value) (m : object_type) :
  map_find k m = Some x -> In (k, x) m.
Proof.
  induction m as [|[k' x'] m IH]; simpl; [discriminate|].
  destruct (String.eqb_spec k k') as [->|Hne].
  - intro Heq. inversion Heq. now left.
  - intro Hf. right. now apply IH.
Qed.

Lemma map_find_below (k : string) (m : object_type) :
  (forall k' x', In (k', x') m -> String.compare k k' = Lt) ->
  map_find k m = None.
Proof.
  intro Hall. destruct (map_find k m) as [x|] eqn:Hf; [|reflexivity].
  apply map_find_In, Hall in Hf. now rewrite compare_refl in Hf.
Qed.

Lemma map_insert_sorted (k : string) (x : value) (m : object_type) :
  map_sorted m = true -> map_sorted (map_insert k x m) = true.
Proof.
  induction m as [|[k' x'] m IH]; intro Hs; [reflexivity|].
  simpl. destruct (String.compare k k') eqn:Hcmp.
  - apply compare_Eq in Hcmp. now subst k'.
  - change (String.ltb k k' && map_sorted ((k', x') :: m) = true).
    rewrite Hs, andb_true_r. now apply ltb_Lt.
  - simpl in Hs. apply andb_true_iff in Hs as [Hk Hs].
    simpl. rewrite (IH Hs), andb_true_r.
    apply compare_Gt_Lt in Hcmp.
    destruct m as [|[k0 x0] m]; simpl.
    + now apply ltb_Lt.
    + destruct (String.compare k k0); simpl; try exact Hk; now apply ltb_Lt.
Qed.

Lemma map_insert_last (k : string) (x : value) (m : object_type) :
  (forall k' x', In (k', x') m -> String.compare k' k = Lt) ->
  map_insert k x m = (m ++ [(k, x)])%list.
Proof.
  induction m as [|[k' x'] m IH]; intro Hall; [reflexivity|].
  simpl. rewrite (proj2 (compare_Gt_Lt k k')) by (apply (Hall k' x'); now left).
  rewrite IH; [reflexivity|]. intros k0 x0 Hin. apply (Hall k0 x0). now right.
Qed.

Lemma map_sorted_app_below (m : object_type) (k : string) (x : value)
    (rest : object_type) :
  map_sorted (m ++ (k, x) :: rest)%list = true ->
  forall k' x', In (k', x') m -> String.compare k' k = Lt.
Proof.
  induction m as [|[k0 x0] m IH]; intros Hs k' x' Hin; [contradiction|].
  destruct Hin as [Heq|Hin].
  - inversion Heq; subst. apply (map_sorted_above k' x' _ Hs k x).
    apply in_or_app. right. now left.
  - apply (IH (map_sorted_tail _ _ Hs) k' x' Hin).
Qed.

(** Members already in ascending order are kept as they are. *)
Lemma map_of_members_sorted_id (members acc : object_type) :
  map_sorted (acc ++ members)%list = true ->
  map_of_members members acc = (acc ++ members)%list.
Proof.
  revert acc. induction members as [|[k x] members IH]; intros acc Hs; simpl.
  - now rewrite app_nil_r.
  - rewrite (map_insert_last k x acc (map_sorted_app_below acc k x members Hs)).
    rewrite IH; rewrite <- app_assoc; [reflexivity | exact Hs].
Qed.

Lemma map_of_members_keeps_sorted (members acc : object_type) :
  map_sorted acc = true -> map_sorted (map_of_members members acc) = true.
Proof.
  revert acc. induction members as [|[k x] members IH]; intros acc Hs;
    [exact Hs|].
  simpl. apply IH. now apply map_insert_sorted.
Qed.

Lemma map_find_of_members (k : string) (members acc : object_type) :
  map_find k (map_of_members members acc) =
  match find_last k members with
  | Some x => Some x
  | None => map_find k acc
  end.
Proof.
  revert acc. induction members as [|[k' x] members IH]; intro acc; simpl;
    [reflexivity|].
  rewrite IH. destruct (find_last k members) as [y|]; [reflexivity|].
  destruct (String.eqb_spec k k') as [->|Hne].
  - apply map_find_insert_same.
  - now apply map_find_insert_other.
Qed.

(** Two maps in ascending order with the same entries are the same map. *)
Lemma map_sorted_ext (m1 m2 : object_type) :
  map_sorted m1 = true -> map_sorted m2 = true ->
  (forall k, map_find k m1 = map_find k m2) -> m1 = m2.
Proof.
  revert m2. induction m1 as [|[k1 x1] m1 IH]; intros [|[k2 x2] m2] Hs1 Hs2 Hf.
  - reflexivity.
  - specialize (Hf k2). simpl in Hf. now rewrite String.eqb_refl in Hf.
  - specialize (Hf k1). simpl in Hf. now rewrite String.eqb_refl in Hf.
  - pose proof (map_sorted_above k1 x1 m1 Hs1) as Ha1.
    pose proof (map_sorted_above k2 x2 m2 Hs2) as Ha2.
    assert (Hk : k1 = k2).
    { destruct (String.compare k1 k2) eqn:Hcmp.
      - now apply compare_Eq.
      - pose proof (Hf k1) as H1. simpl in H1.
        rewrite String.eqb_refl, (eqb_false_of_neq _ _ (compare_Lt_neq _ _ Hcmp)) in H1.
        rewrite map_find_below in H1; [discriminate|].
        intros k' x' Hin. apply compare_Lt_trans with k2; [exact Hcmp|].
        now apply (Ha2 k' x').
      - apply compare_Gt_Lt in Hcmp.
        pose proof (Hf k2) as H2. simpl in H2.
        rewrite String.eqb_refl, (eqb_false_of_neq _ _ (compare_Lt_neq _ _ Hcmp)) in H2.
        rewrite map_find_below in H2; [discriminate|].
        intros k' x' Hin. apply compare_Lt_trans with k1; [exact Hcmp|].
        now apply (Ha1 k' x'). }
    subst k2.
    assert (Hx : x1 = x2).
    { specialize (Hf k1). simpl in Hf. rewrite String.eqb_refl in Hf.
      now inversion Hf. }
    subst x2. f_equal.
    apply IH; [now apply map_sorted_tail in Hs1 | now apply map_sorted_tail in Hs2|].
    intro k. destruct (String.eqb_spec k k1) as [->|Hne].
    + rewrite !map_find_below; auto.
    + specialize (Hf k). simpl in Hf.
      now rewrite (eqb_false_of_neq _ _ Hne) in Hf.
Qed.

Lemma find_last_In (k : string) (x : value) (members : object_type) :
  find_last k members = Some x -> In (k, x) members.
Proof.
  induction members as [|[k' x'] members IH]; simpl; [discriminate|].
  destruct (find_last k members) as [y|].
  - intro Heq. right. now apply IH.
  - destruct (String.eqb_spec k k') as [->|Hne]; [|discriminate].
    intro Heq. inversion Heq. now left.
Qed.

Lemma find_last_NoDup (k : string) (x : value) (members : object_type) :
  NoDup (List.map fst members) -> In (k, x) members ->
  find_last k members = Some x.
Proof.
  induction members as [|[k' x'] members IH]; simpl; [contradiction|].
  intros Hnd Hin. inversion Hnd as [|? ? Hnotin Hnd']; subst.
  destruct Hin as [Heq|Hin].
  - inversion Heq; subst.
    destruct (find_last k members) as [y|] eqn:Hf.
    + apply find_last_In in Hf. contradiction Hnotin.
      now apply (in_map fst) in Hf.
    + now rewrite String.eqb_refl.
  - now rewrite (IH Hnd' Hin).
Qed.

Lemma find_last_permutation (k : string) (ms1 ms2 : object_type) :
  NoDup (List.map fst ms1) -> Permutation ms1 ms2 ->
  find_last k ms1 = find_last k ms2.
Proof.
  intros Hnd Hperm.
  assert (Hnd2 : NoDup (List.map fst ms2)).
  { apply Permutation_NoDup with (List.map fst ms1); [|exact Hnd].
    now apply Permutation_map. }
  destruct (find_last k ms1) as [x|] eqn:H1.
  - symmetry. apply find_last_NoDup; [exact Hnd2|].
    apply Permutation_in with ms1; [exact Hperm | now apply find_last_In].
  - destruct (find_last k ms2) as [y|] eqn:H2; [|reflexivity].
    apply find_last_In in H2.
    apply Permutation_in with (l' := ms1) in H2; [|now apply Permutation_sym].
    apply (find_last_NoDup k y ms1 Hnd) in H2. congruence.
Qed.

(** The map does not depend on the order the members came in. *)
Lemma map_of_members_permutation (ms1 ms2 : object_type) :
  NoDup (List.map fst ms1) -> Permutation ms1 ms2 ->
  map_of_members ms1 [] = map_of_members ms2 [].
Proof.
  intros Hnd Hperm. apply map_sorted_ext.
  - now apply map_of_members_keeps_sorted.
  - now apply map_of_members_keeps_sorted.
  - intro k. rewrite !map_find_of_members.
    now rewrite (find_last_permutation k ms1 ms2 Hnd Hperm).
Qed.

(** ** Pointers into the document *)

Lemma nth_error_list_replace {A} (i : nat) (x z : A) (l : list A) :
  nth_error l i = Some z -> nth_error (list_replace i x l) i = Some x.
Proof.
  revert i. induction l as [|y l IH]; intros [|i]; simpl; try discriminate; auto.
Qed.

Lemma list_replace_replace {A} (i : nat) (x y : A) (l : list A) :
  list_replace i y (list_replace i x l) = list_replace i y l.
Proof.
  revert i. induction l as [|z l IH]; intros [|i]; simpl; try reflexivity.
  now rewrite IH.
Qed.

Lemma list_replace_same {A} (i : nat) (x : A) (l : list A) :
  nth_error l i = Some x -> list_replace i x l = l.
Proof.
  revert i. induction l as [|z l IH]; intros [|i]; simpl; try discriminate.
  - intro Heq. now inversion Heq.
  - intro Hn. now rewrite IH.
Qed.

Lemma nth_error_last {A} (l : list A) (x : A) :
  nth_error (l ++ [x])%list (List.length l) = Some x.
Proof. induction l as [|y l IH]; simpl; auto. Qed.

Lemma list_replace_last {A} (l : list A) (x y : A) :
  list_replace (List.length l) y (l ++ [x])%list = (l ++ [y])%list.
Proof. induction l as [|z l IH]; simpl; [reflexivity | now rewrite IH]. Qed.

Lemma map_replace_same (k : string) (x : value) (m : object_type) :
  map_find k m = Some x -> map_replace k x m = m.
Proof.
  induction m as [|[k' x'] m IH]; simpl; [reflexivity|].
  destruct (String.eqb k k').
  - intro Heq. now inversion Heq.
  - intro Hf. now rewrite IH.
Qed.

Lemma store_some (p : pointer) (x : value) :
  forall root c, load root p = Some c -> exists root', store root p x = Some root'.
Proof.
  induction p as [|[i|k] p IH]; intros root c Hload; simpl in *.
  - eauto.
  - destruct root; try discriminate.
    destruct (nth_error a i) as [y|]; [|discriminate].
    destruct (IH y c Hload) as [y' ->]. eauto.
  - destruct root; try discriminate.
    destruct (map_find k m) as [y|]; [|discriminate].
    destruct (IH y c Hload) as [y' ->]. eauto.
Qed.

Lemma load_store (p : pointer) (x : value) :
  forall root root', store root p x = Some root' -> load root' p = Some x.
Proof.
  induction p as [|[i|k] p IH]; intros root root' Hstore; simpl in *.
  - congruence.
  - destruct root; try discriminate.
    destruct (nth_error a i) as [y|] eqn:Hn; [|discriminate].
    destruct (store y p x) as [y'|] eqn:Hs; [|discriminate].
    inversion Hstore; subst. simpl.
    rewrite (nth_error_list_replace i y' y a Hn). now apply (IH y).
  - destruct root; try discriminate.
    destruct (map_find k m) as [y|] eqn:Hf; [|discriminate].
    destruct (store y p x) as [y'|] eqn:Hs; [|discriminate].
    inversion Hstore; subst. simpl.
    rewrite (map_find_replace k y' y m Hf). now apply (IH y).
Qed.

Lemma store_store (p : pointer) (x y : value) :
  forall root root', store root p x = Some root' ->
                     store root' p y = store root p y.
Proof.
  induction p as [|[i|k] p IH]; intros root root' Hstore; simpl in *.
  - reflexivity.
  - destruct root; try discriminate.
    destruct (nth_error a i) as [z|] eqn:Hn; [|discriminate].
    destruct (store z p x) as [z'|] eqn:Hs; [|discriminate].
    inversion Hstore; subst. simpl.
    rewrite (nth_error_list_replace i z' z a Hn), (IH z z' Hs).
    destruct (store z p y); [|reflexivity].
    now rewrite list_replace_replace.
  - destruct root; try discriminate.
    destruct (map_find k m) as [z|] eqn:Hf; [|discriminate].
    destruct (store z p x) as [z'|] eqn:Hs; [|discriminate].
    inversion Hstore; subst. simpl.
    rewrite (map_find_replace k z' z m Hf), (IH z z' Hs).
    destruct (store z p y); [|reflexivity].
    now rewrite map_replace_replace.
Qed.

Lemma store_same (p : pointer) :
  forall root c, load root p = Some c -> store root p c = Some root.
Proof.
  induction p as [|[i|k] p IH]; intros root c Hload; simpl in *.
  - congruence.
  - destruct root; try discriminate.
    destruct (nth_error a i) as [y|] eqn:Hn; [|discriminate].
    rewrite (IH y c Hload). now rewrite (list_replace_same i y a Hn).
  - destruct root; try discriminate.
    destruct (map_find k m) as [y|] eqn:Hf; [|discriminate].
    rewrite (IH y c Hload). now rewrite (map_replace_same k y m Hf).
Qed.

Lemma load_app (p q : pointer) :
  forall root,
    load root (p ++ q)%list =
    match load root p with
    | Some c => load c q
    | None => None
    end.
Proof.
  induction p as [|[i|k] p IH]; intro root; simpl.
  - reflexivity.
  - destruct root; try reflexivity. destruct (nth_error a i); [apply IH | reflexivity].
  - destruct root; try reflexivity. destruct (map_find k m); [apply IH | reflexivity].
Qed.

Lemma store_app (p q : pointer) (y : value) :
  forall root,
    store root (p ++ q)%list y =
    match load root p with
    | Some c => match store c q y with
                | Some c' => store root p c'
                | None => None
                end
    | None => None
    end.
Proof.
  induction p as [|[i|k] p IH]; intro root; simpl.
  - now destruct (store root q y).
  - destruct root; try reflexivity.
    destruct (nth_error a i) as [z|]; [|reflexivity].
    rewrite IH. destruct (load z p) as [c|]; [|reflexivity].
    now destruct (store c q y).
  - destruct root; try reflexivity.
    destruct (map_find k m) as [z|]; [|reflexivity].
    rewrite IH. destruct (load z p) as [c|]; [|reflexivity].
    now destruct (store c q y).
Qed.

Lemma load_child (c : value) (key : string) (x : value) :
  is_container c = true -> load (attach c key x) [child c key] = Some x.
Proof.
  destruct c; try discriminate; intros _; simpl.
  - now rewrite map_find_insert_same.
  - now rewrite nth_error_last.
Qed.

Lemma store_child (c : value) (key : string) (x y : value) :
  is_container c = true ->
  store (attach c key x) [child c key] y = Some (attach c key y).
Proof.
  destruct c; try discriminate; intros _; simpl.
  - now rewrite map_find_insert_same, map_replace_insert.
  - now rewrite nth_error_last, list_replace_last.
Qed.

Lemma load_attached (root root' c : value) (back : pointer) (key : string)
    (x : value) :
  is_container c = true ->
  store root back (attach c key x) = Some root' ->
  load root' (back ++ [child c key])%list = Some x.
Proof.
  intros Hc Hstore. rewrite load_app, (load_store _ _ _ _ Hstore).
  now apply load_child.
Qed.

Lemma store_attached (root root' c : value) (back : pointer) (key : string)
    (x y : value) :
  is_container c = true ->
  store root back (attach c key x) = Some root' ->
  store root' (back ++ [child c key])%list y = store root back (attach c key y).
Proof.
  intros Hc Hstore.
  rewrite store_app, (load_store _ _ _ _ Hstore), (store_child c key x y Hc).
  now apply store_store with (x := attach c key x).
Qed.

(** ** The tree builder *)

Lemma notify_all_app (evs1 evs2 : list event) (d : dom_parser) :
  notify_all (evs1 ++ evs2) d = (d' <- notify_all evs1 d ;; notify_all evs2 d').
Proof.
  revert d. induction evs1 as [|ev evs1 IH]; intro d; simpl; [reflexivity|].
  destruct (notify ev d) as [e|d']; simpl; [reflexivity | apply IH].
Qed.

Lemma emplace_attaches (x : value) (p : parser) (root : value) (key : string)
    (back : pointer) (rest : list pointer) (c : value) :
  load root back = Some c -> is_container c = true -> key_idle c key ->
  exists root',
    store root back (attach c key x) = Some root' /\
    emplace x (mk_dom_parser p root key (back :: rest)) =
    ok (mk_dom_parser p root' "" (back :: rest)).
Proof.
  intros Hload Hc Hkey.
  destruct (store_some back (attach c key x) root c Hload) as [root' Hstore].
  exists root'. split; [exact Hstore|].
  unfold emplace. simpl. rewrite Hload.
  destruct c; try discriminate; simpl in Hstore, Hkey; rewrite Hstore;
    [reflexivity | now subst key].
Qed.

Lemma emplace_and_push_attaches (t : type) (p : parser) (root : value)
    (key : string) (back : pointer) (rest : list pointer) (c : value) :
  load root back = Some c -> is_container c = true -> key_idle c key ->
  exists root',
    store root back (attach c key (value_of_type t)) = Some root' /\
    emplace_and_push t (mk_dom_parser p root key (back :: rest)) =
    ok (mk_dom_parser p root' ""
          ((back ++ [child c key])%list :: back :: rest)).
Proof.
  intros Hload Hc Hkey.
  destruct (store_some back (attach c key (value_of_type t)) root c Hload)
    as [root' Hstore].
  exists root'. split; [exact Hstore|].
  unfold emplace_and_push. simpl. rewrite Hload.
  destruct c; try discriminate; simpl in Hstore, Hkey; rewrite Hstore;
    [reflexivity | now subst key].
Qed.

Lemma builds_elements (l : list value) :
  Forall builds l ->
  forall p root back rest acc,
    load root back = Some (VArray acc) ->
    exists root',
      store root back (VArray (acc ++ List.map normalize l)%list) = Some root' /\
      notify_all (flat_map events_of l) (mk_dom_parser p root "" (back :: rest)) =
      ok (mk_dom_parser p root' "" (back :: rest)).
Proof.
  induction 1 as [|x l Hx _ IH]; intros p root back rest acc Hload; simpl.
  - exists root. rewrite app_nil_r. split; [now apply store_same | reflexivity].
  - destruct (Hx p root "" back rest (VArray acc) Hload eq_refl eq_refl)
      as [root1 [Hstore1 Hnotify1]].
    simpl in Hstore1.
    destruct (IH p root1 back rest (acc ++ [normalize x])%list
                (load_store _ _ _ _ Hstore1)) as [root2 [Hstore2 Hnotify2]].
    exists root2. split.
    + rewrite <- (store_store _ _ _ _ _ Hstore1), <- Hstore2.
      now rewrite <- app_assoc.
    + rewrite notify_all_app, Hnotify1. exact Hnotify2.
Qed.

Lemma builds_members (m : list (string * value)) :
  Forall (fun kx => builds (snd kx)) m ->
  forall p root back rest acc,
    load root back = Some (VObject acc) ->
    exists root',
      store root back
        (VObject (map_of_members
                    (List.map (fun kx => (fst kx, normalize (snd kx))) m) acc)) =
      Some root' /\
      notify_all (flat_map (fun kx => key_parsed (fst kx) :: events_of (snd kx)) m)
        (mk_dom_parser p root "" (back :: rest)) =
      ok (mk_dom_parser p root' "" (back :: rest)).
Proof.
  induction 1 as [|[k x] m Hx _ IH]; intros p root back rest acc Hload; simpl.
  - exists root. split; [now apply store_same | reflexivity].
  - simpl in Hx.
    destruct (Hx p root k back rest (VObject acc) Hload eq_refl I)
      as [root1 [Hstore1 Hnotify1]].
    simpl in Hstore1.
    destruct (IH p root1 back rest (map_insert k (normalize x) acc)
                (load_store _ _ _ _ Hstore1)) as [root2 [Hstore2 Hnotify2]].
    exists root2. split.
    + now rewrite <- (store_store _ _ _ _ _ Hstore1), <- Hstore2.
    + unfold on_key_parsed. simpl.
      rewrite notify_all_app, Hnotify1. exact Hnotify2.
Qed.

Lemma events_of_object (m : object_type) :
  events_of (VObject m) =
  (object_start ::
   flat_map (fun kx => key_parsed (fst kx) :: events_of (snd kx)) m ++
   [object_end])%list.
Proof. reflexivity. Qed.

Lemma events_of_array (a : array_type) :
  events_of (VArray a) = (array_start :: flat_map events_of a ++ [array_end])%list.
Proof. reflexivity. Qed.

Lemma events_build_scalar (ev : event) (x : value) (p : parser) (root : value)
    (key : string) (back : pointer) (rest : list pointer) (c : value) :
  notify ev = emplace x ->
  load root back = Some c -> is_container c = true -> key_idle c key ->
  exists root',
    store root back (attach c key x) = Some root' /\
    notify_all [ev] (mk_dom_parser p root key (back :: rest)) =
    ok (mk_dom_parser p root' "" (back :: rest)).
Proof.
  intros Hev Hload Hc Hkey.
  destruct (emplace_attaches x p root key back rest c Hload Hc Hkey)
    as [root' [Hstore Hemplace]].
  exists root'. split; [exact Hstore|].
  simpl. now rewrite Hev, Hemplace.
Qed.

(** The events of a tree attach the tree to the container on top of the
    stack and leave the stack as it was. *)
Lemma events_build (t : value) : builds t.
Proof.
  induction t as [| b | n | s | m IHm | a IHa] using value_tree_ind;
    intros p root key back rest c Hload Hc Hkey.
  - apply (events_build_scalar null_parsed VNull); [reflexivity | assumption..].
  - apply (events_build_scalar (boolean_parsed b) (VBoolean b));
      [reflexivity | assumption..].
  - destruct n as [text].
    apply (events_build_scalar (number_parsed text)
             (VNumber (mk_string_number text))); [reflexivity | assumption..].
  - apply (events_build_scalar (string_parsed s) (VString s));
      [reflexivity | assumption..].
  - destruct (emplace_and_push_attaches type_object p root key back rest c
                Hload Hc Hkey) as [root1 [Hstore1 Hpush]].
    destruct (builds_members m IHm p root1 (back ++ [child c key])%list
                (back :: rest) [] (load_attached _ _ _ _ _ _ Hc Hstore1))
      as [root2 [Hstore2 Hnotify2]].
    unfold pointer in *. exists root2. split.
    + rewrite <- Hstore2. symmetry.
      exact (store_attached _ _ _ _ _ _ _ Hc Hstore1).
    + rewrite events_of_object. cbn [notify_all notify]. unfold on_object_start.
      rewrite Hpush, bind_ok, notify_all_app, Hnotify2.
      reflexivity.
  - destruct (emplace_and_push_attaches type_array p root key back rest c
                Hload Hc Hkey) as [root1 [Hstore1 Hpush]].
    destruct (builds_elements a IHa p root1 (back ++ [child c key])%list
                (back :: rest) [] (load_attached _ _ _ _ _ _ Hc Hstore1))
      as [root2 [Hstore2 Hnotify2]].
    unfold pointer in *. exists root2. split.
    + rewrite <- Hstore2. symmetry.
      exact (store_attached _ _ _ _ _ _ _ Hc Hstore1).
    + rewrite events_of_array. cbn [notify_all notify]. unfold on_array_start.
      rewrite Hpush, bind_ok, notify_all_app, Hnotify2.
      reflexivity.
Qed.

(** ** The parser on serialized text *)

Ltac value_stack stack Hexpects :=
  destruct stack as [|[[]|[]] ?]; try discriminate Hexpects.

Lemma parser_feed_cons (p : parser) (c : ascii) (chunk : string) :
  parser_feed p (String c chunk) =
  ('(evs, p') <- parser_step p c ;; prepend evs (parser_feed p' chunk)).
Proof. reflexivity. Qed.

Lemma feed_escaped_char (stack : list container_state) (buf : string)
    (c : ascii) (rest : string) :
  parser_feed (mk_parser stack (InString Normal buf)) (escape_char c ++ rest) =
  parser_feed (mk_parser stack (InString Normal (append_char buf c))) rest.
Proof.
  destruct c as [[] [] [] [] [] [] [] []];
    cbn -[append_char]; rewrite ?prepend_nil; reflexivity.
Qed.

Lemma feed_escaped_string (s : string) :
  forall stack buf rest,
    parser_feed (mk_parser stack (InString Normal buf)) (escape_string s ++ rest) =
    parser_feed (mk_parser stack (InString Normal (buf ++ s))) rest.
Proof.
  induction s as [|c s IH]; intros stack buf rest.
  - now rewrite append_nil_r.
  - rewrite escape_string_cons, append_assoc, feed_escaped_char, IH.
    now rewrite append_char_cons.
Qed.

Lemma feed_number_run (text : string) :
  forall stack s s' buf rest,
    number_run s text = Some s' ->
    parser_feed (mk_parser stack (InNumber s buf)) (text ++ rest) =
    parser_feed (mk_parser stack (InNumber s' (buf ++ text))) rest.
Proof.
  induction text as [|c text IH]; intros stack s s' buf rest Hrun; simpl in Hrun.
  - inversion Hrun. now rewrite append_nil_r.
  - destruct (number_continue s c) as [s1|] eqn:Hc; [|discriminate].
    change (String c text ++ rest) with (String c (text ++ rest)).
    rewrite parser_feed_cons.
    cbn [parser_step token container_stack]. unfold step_number. rewrite Hc.
    cbv beta iota. rewrite bind_ok. cbv beta iota.
    rewrite prepend_nil, (IH _ _ _ _ _ Hrun).
    now rewrite append_char_cons.
Qed.

Lemma feed_number_end (stack : list container_state) (s : number_state)
    (buf rest : string) :
  number_complete s = true -> delimited rest ->
  parser_feed (mk_parser stack (InNumber s buf)) rest =
  prepend [number_parsed buf]
    (parser_feed (mk_parser (value_done stack) BetweenTokens) rest).
Proof.
  intros Hcomplete Hrest. destruct rest as [|c rest]; [contradiction|].
  simpl in Hrest. rewrite !parser_feed_cons.
  cbn [parser_step token container_stack]. unfold step_number.
  rewrite Hrest, Hcomplete. cbv beta iota.
  destruct (step_between (value_done stack) c) as [e|[evs p]]; [reflexivity|].
  change (@inr error (list event * parser) (evs, p)) with (ok (evs, p)).
  repeat (rewrite bind_ok; cbv beta iota).
  now rewrite prepend_prepend.
Qed.

Lemma step_between_number (stack : list container_state) (c : ascii)
    (s : number_state) :
  expects_value stack = true -> number_start c = Some s ->
  step_between stack c = ok ([], mk_parser stack (InNumber s (String c ""))).
Proof.
  intros Hexpects Hstart.
  destruct c as [[] [] [] [] [] [] [] []]; try discriminate Hstart;
    value_stack stack Hexpects; cbn in Hstart |- *;
    inversion Hstart; reflexivity.
Qed.

Lemma delimited_comma (rest : string) : delimited (String "," rest).
Proof. intros []; reflexivity. Qed.

Lemma delimited_close_square (rest : string) : delimited (String "]" rest).
Proof. intros [|[]|[]| |[]]; reflexivity. Qed.

Lemma delimited_close_curly (rest : string) : delimited (String "}" rest).
Proof. intros [|[]|[]| |[]]; reflexivity. Qed.

Lemma delimited_elements (text : value -> string) (l : list value) (rest : string) :
  delimited (json_elements text false l ++ String "]" rest).
Proof. destruct l; [apply delimited_close_square | apply delimited_comma]. Qed.

Lemma delimited_members (text : value -> string) (l : list (string * value))
    (rest : string) :
  delimited (json_members text false l ++ String "}" rest).
Proof. destruct l as [|[k x] l]; [apply delimited_close_curly | apply delimited_comma]. Qed.

Lemma parses_null : parses VNull.
Proof.
  intros _ stack rest Hexpects _.
  value_stack stack Hexpects; cbn; rewrite ?prepend_nil;
    destruct (parser_feed _ rest) as [e|[evs p]]; reflexivity.
Qed.

Lemma parses_boolean (b : bool) : parses (VBoolean b).
Proof.
  intros _ stack rest Hexpects _.
  destruct b; value_stack stack Hexpects; cbn; rewrite ?prepend_nil;
    destruct (parser_feed _ rest) as [e|[evs p]]; reflexivity.
Qed.

Lemma parses_number (n : string_number) : parses (VNumber n).
Proof.
  destruct n as [text]. intros Hvalid stack rest Hexpects Hrest.
  specialize (Hrest eq_refl). cbn in Hvalid |- *.
  unfold number_grammar in Hvalid.
  destruct text as [|c text]; [discriminate|].
  destruct (number_start c) as [s|] eqn:Hstart; [|discriminate].
  destruct (number_run s text) as [s'|] eqn:Hrun; [|discriminate].
  change (String c text ++ rest) with (String c (text ++ rest)).
  rewrite parser_feed_cons. cbn [parser_step token container_stack].
  rewrite (step_between_number stack c s Hexpects Hstart), bind_ok.
  cbv beta iota. rewrite prepend_nil, (feed_number_run text _ _ _ _ _ Hrun).
  now apply feed_number_end.
Qed.

Lemma parses_string (s : string) : parses (VString s).
Proof.
  intros _ stack rest Hexpects _. cbn [json_text events_of].
  unfold double_quote. rewrite !append_assoc.
  change (String "034" "" ++ escape_string s ++ String "034" "" ++ rest)
    with (String "034" (escape_string s ++ String "034" rest)).
  rewrite parser_feed_cons.
  assert (Hbegin : parser_step (mk_parser stack BetweenTokens) "034" =
                   ok ([], mk_parser stack (InString Normal "")))
    by (value_stack stack Hexpects; reflexivity).
  rewrite Hbegin, bind_ok. cbv beta iota.
  rewrite prepend_nil, feed_escaped_string, parser_feed_cons.
  assert (Hend : parser_step (mk_parser stack (InString Normal ("" ++ s))) "034" =
                 between [string_parsed s] (value_done stack))
    by (value_stack stack Hexpects; reflexivity).
  rewrite Hend. reflexivity.
Qed.

Lemma forallb_cons_true {A} (f : A -> bool) (x : A) (l : list A) :
  forallb f (x :: l) = true -> f x = true /\ forallb f l = true.
Proof. simpl. intro Hf. now apply andb_true_iff in Hf. Qed.

(** The elements of an array up to and including the closing bracket. *)
Lemma parses_elements (l : list value) :
  Forall parses l -> forallb numbers_valid l = true ->
  forall (at_begin : bool) stack rest,
    parser_feed
      (mk_parser
         (InArray (if at_begin then ArrayExpectingValueOrEnd
                   else ArrayExpectingCommaOrEnd) :: stack)
         BetweenTokens)
      (json_elements json_text at_begin l ++ String "]" rest) =
    prepend (flat_map events_of l ++ [array_end])%list
      (parser_feed (mk_parser (value_done stack) BetweenTokens) rest).
Proof.
  induction 1 as [|x l Hx _ IH]; intros Hvalid at_begin stack rest.
  - destruct at_begin; cbn; destruct (parser_feed _ rest) as [e|[evs p]];
      reflexivity.
  - apply forallb_cons_true in Hvalid as [Hvx Hvl].
    cbn [json_elements flat_map]. rewrite !append_assoc.
    destruct at_begin.
    + change ("" ++ json_text x ++ json_elements json_text false l ++ String "]" rest)
        with (json_text x ++ json_elements json_text false l ++ String "]" rest).
      rewrite (Hx Hvx (InArray ArrayExpectingValueOrEnd :: stack) _ eq_refl
                 (fun _ => delimited_elements json_text l rest)).
      cbn [value_done]. rewrite (IH Hvl false), prepend_prepend.
      now rewrite <- app_assoc.
    + change (comma ++ json_text x ++ json_elements json_text false l ++ String "]" rest)
        with (String "," (json_text x ++ json_elements json_text false l ++ String "]" rest)).
      rewrite parser_feed_cons.
      change (parser_step (mk_parser (InArray ArrayExpectingCommaOrEnd :: stack)
                             BetweenTokens) ",")
        with (ok (@nil event, mk_parser (InArray ArrayExpectingValue :: stack)
                                BetweenTokens)).
      rewrite bind_ok. cbv beta iota. rewrite prepend_nil.
      rewrite (Hx Hvx (InArray ArrayExpectingValue :: stack) _ eq_refl
                 (fun _ => delimited_elements json_text l rest)).
      cbn [value_done]. rewrite (IH Hvl false), prepend_prepend.
      now rewrite <- app_assoc.
Qed.

Lemma parses_array (a : list value) : Forall parses a -> parses (VArray a).
Proof.
  intros Ha Hvalid stack rest Hexpects _. cbn [json_text numbers_valid] in *.
  rewrite events_of_array. unfold open_square_brace, close_square_brace.
  rewrite !append_assoc.
  change ("[" ++ json_elements json_text true a ++ "]" ++ rest)
    with (String "[" (json_elements json_text true a ++ String "]" rest)).
  rewrite parser_feed_cons.
  assert (Hbegin : parser_step (mk_parser stack BetweenTokens) "[" =
                   between [array_start] (InArray ArrayExpectingValueOrEnd :: stack))
    by (value_stack stack Hexpects; reflexivity).
  rewrite Hbegin. unfold between. rewrite bind_ok. cbv beta iota.
  rewrite (parses_elements a Ha Hvalid true), prepend_prepend.
  reflexivity.
Qed.

(** A key, from its opening quote to the colon. *)
Lemma parses_key (k : string) (s : object_state) (stack : list container_state)
    (rest : string) :
  s = ObjectExpectingKeyOrEnd \/ s = ObjectExpectingKey ->
  parser_feed (mk_parser (InObject s :: stack) BetweenTokens)
    (double_quote ++ escape_string k ++ double_quote_and_colon ++ rest) =
  prepend [key_parsed k]
    (parser_feed (mk_parser (InObject ObjectExpectingValue :: stack) BetweenTokens)
       rest).
Proof.
  intro Hs.
  change (double_quote ++ escape_string k ++ double_quote_and_colon ++ rest)
    with (String "034" (escape_string k ++ String "034" (String ":" rest))).
  rewrite parser_feed_cons.
  assert (Hbegin : parser_step (mk_parser (InObject s :: stack) BetweenTokens) "034" =
                   ok ([], mk_parser (InObject s :: stack) (InString Normal "")))
    by (destruct Hs as [-> | ->]; reflexivity).
  rewrite Hbegin, bind_ok. cbv beta iota.
  rewrite prepend_nil, feed_escaped_string, parser_feed_cons.
  assert (Hend : parser_step (mk_parser (InObject s :: stack)
                                (InString Normal ("" ++ k))) "034" =
                 between [key_parsed k] (InObject ObjectExpectingColon :: stack))
    by (destruct Hs as [-> | ->]; reflexivity).
  rewrite Hend. unfold between. rewrite bind_ok. cbv beta iota.
  rewrite parser_feed_cons.
  change (parser_step (mk_parser (InObject ObjectExpectingColon :: stack)
                         BetweenTokens) ":")
    with (ok (@nil event, mk_parser (InObject ObjectExpectingValue :: stack)
                            BetweenTokens)).
  rewrite bind_ok. cbv beta iota. now rewrite prepend_nil.
Qed.

(** The members of an object up to and including the closing brace. *)
Lemma parses_members (m : list (string * value)) :
  Forall (fun kx => parses (snd kx)) m ->
  forallb (fun kx => numbers_valid (snd kx)) m = true ->
  forall (at_begin : bool) stack rest,
    parser_feed
      (mk_parser
         (InObject (if at_begin then ObjectExpectingKeyOrEnd
                    else ObjectExpectingCommaOrEnd) :: stack)
         BetweenTokens)
      (json_members json_text at_begin m ++ String "}" rest) =
    prepend
      (flat_map (fun kx => key_parsed (fst kx) :: events_of (snd kx)) m ++
       [object_end])%list
      (parser_feed (mk_parser (value_done stack) BetweenTokens) rest).
Proof.
  induction 1 as [|[k x] m Hx _ IH]; intros Hvalid at_begin stack rest.
  - destruct at_begin; cbn; destruct (parser_feed _ rest) as [e|[evs p]];
      reflexivity.
  - apply forallb_cons_true in Hvalid as [Hvx Hvm]. simpl in Hx, Hvx.
    cbn [json_members flat_map fst snd]. rewrite !append_assoc.
    destruct at_begin.
    + change ("" ++ double_quote ++ escape_string k ++ double_quote_and_colon ++
              json_text x ++ json_members json_text false m ++ String "}" rest)
        with (double_quote ++ escape_string k ++ double_quote_and_colon ++
              json_text x ++ json_members json_text false m ++ String "}" rest).
      rewrite (parses_key k ObjectExpectingKeyOrEnd) by now left.
      rewrite (Hx Hvx (InObject ObjectExpectingValue :: stack) _ eq_refl
                 (fun _ => delimited_members json_text m rest)).
      cbn [value_done]. rewrite (IH Hvm false), !prepend_prepend.
      f_equal. cbn [app]. now rewrite <- ?app_assoc.
    + change (comma ++ double_quote ++ escape_string k ++ double_quote_and_colon ++
              json_text x ++ json_members json_text false m ++ String "}" rest)
        with (String ","
                (double_quote ++ escape_string k ++ double_quote_and_colon ++
                 json_text x ++ json_members json_text false m ++ String "}" rest)).
      rewrite parser_feed_cons.
      change (parser_step (mk_parser (InObject ObjectExpectingCommaOrEnd :: stack)
                             BetweenTokens) ",")
        with (ok (@nil event, mk_parser (InObject ObjectExpectingKey :: stack)
                                BetweenTokens)).
      rewrite bind_ok. cbv beta iota. rewrite prepend_nil.
      rewrite (parses_key k ObjectExpectingKey) by now right.
      rewrite (Hx Hvx (InObject ObjectExpectingValue :: stack) _ eq_refl
                 (fun _ => delimited_members json_text m rest)).
      cbn [value_done]. rewrite (IH Hvm false), !prepend_prepend.
      f_equal. cbn [app]. now rewrite <- ?app_assoc.
Qed.

Lemma parses_object (m : list (string * value)) :
  Forall (fun kx => parses (snd kx)) m -> parses (VObject m).
Proof.
  intros Hm Hvalid stack rest Hexpects _. cbn [json_text numbers_valid] in *.
  rewrite events_of_object. unfold open_curly_brace, close_curly_brace.
  rewrite !append_assoc.
  change ("{" ++ json_members json_text true m ++ "}" ++ rest)
    with (String "{" (json_members json_text true m ++ String "}" rest)).
  rewrite parser_feed_cons.
  assert (Hbegin : parser_step (mk_parser stack BetweenTokens) "{" =
                   between [object_start] (InObject ObjectExpectingKeyOrEnd :: stack))
    by (value_stack stack Hexpects; reflexivity).
  rewrite Hbegin. unfold between. rewrite bind_ok. cbv beta iota.
  rewrite (parses_members m Hm Hvalid true), prepend_prepend.
  reflexivity.
Qed.

(** The parser reads the text [write_internal] produces for a tree as the
    events of that tree. *)
Lemma parser_reads_text (t : value) : parses t.
Proof.
  induction t as [| b | n | s | m IHm | a IHa] using value_tree_ind.
  - apply parses_null.
  - apply parses_boolean.
  - apply parses_number.
  - apply parses_string.
  - now apply parses_object.
  - now apply parses_array.
Qed.

(** ** Reading what was written *)

Lemma with_base_base (d : dom_parser) : with_base (base d) d = d.
Proof. now destruct d. Qed.

Lemma notify_with_base (ev : event) (p : parser) (d : dom_parser) :
  notify ev (with_base p d) = (d' <- notify ev d ;; ok (with_base p d')).
Proof.
  destruct d as [p0 root key0 [|back rest]];
    destruct ev; try reflexivity;
    unfold with_base; simpl;
    unfold on_object_start, on_array_start, on_string_parsed, on_number_parsed,
      on_boolean_parsed, on_null_parsed, emplace_and_push, emplace; simpl;
    destruct (load root back) as [[]|]; try reflexivity;
    match goal with
    | |- context [store ?r ?b ?x] => destruct (store r b x); reflexivity
    end.
Qed.

Lemma notify_all_with_base (evs : list event) (p : parser) (d : dom_parser) :
  notify_all evs (with_base p d) =
  (d' <- notify_all evs d ;; ok (with_base p d')).
Proof.
  revert d. induction evs as [|ev evs IH]; intro d; simpl; [reflexivity|].
  rewrite notify_with_base. destruct (notify ev d) as [e|d1]; simpl;
    [reflexivity | apply IH].
Qed.

(** [feed] is the parser's events handed to the builder. *)
Lemma feed_parser_events (s : string) :
  forall d evs p',
    parser_feed (base d) s = ok (evs, p') ->
    feed d s = (d' <- notify_all evs d ;; ok (with_base p' d')).
Proof.
  induction s as [|c s IH]; intros d evs p' Hparse; simpl in *.
  - inversion Hparse; subst. simpl. now rewrite with_base_base.
  - destruct (parser_step (base d) c) as [e|[evs1 p1]]; [discriminate|].
    simpl in *.
    destruct (parser_feed p1 s) as [e|[evs2 p2]] eqn:Hrest; [discriminate|].
    inversion Hparse; subst. clear Hparse.
    change (mk_dom_parser p1 (doc d) (key d) (stack d)) with (with_base p1 d).
    rewrite notify_all_with_base, notify_all_app.
    destruct (notify_all evs1 d) as [e|d1]; simpl; [reflexivity|].
    rewrite (IH (with_base p1 d1) evs2 p' Hrest).
    rewrite notify_all_with_base.
    destruct (notify_all evs2 d1) as [e|d2]; reflexivity.
Qed.

Lemma parser_feed_text (t : value) :
  numbers_valid t = true -> get_type t <> type_number ->
  parser_feed parser_init (json_text t) = ok (events_of t, parser_init).
Proof.
  intros Hvalid Hkind.
  rewrite <- (append_nil_r (json_text t)).
  unfold parser_init.
  rewrite (parser_reads_text t Hvalid [] "" eq_refl)
    by (intro Hn; contradiction).
  simpl. unfold ok. now rewrite app_nil_r.
Qed.

(** The text of a raw tree reads as the tree it stands for. *)
Lemma read_json_text (t : value) :
  numbers_valid t = true -> get_type t <> type_number ->
  read (json_text t) = ok (normalize t).
Proof.
  intros Hvalid Hkind. rewrite read_feed.
  rewrite (feed_parser_events (json_text t) dom_parser_init (events_of t)
             parser_init (parser_feed_text t Hvalid Hkind)).
  destruct (events_build t parser_init (VArray []) "" [] [] (VArray [])
              eq_refl eq_refl eq_refl) as [root' [Hstore Hnotify]].
  simpl in Hstore. inversion Hstore; subst root'.
  change dom_parser_init with (mk_dom_parser parser_init (VArray []) "" [[]]).
  unfold pointer in *. rewrite Hnotify. reflexivity.
Qed.

Lemma map_normalize_id (a : list value) :
  Forall (fun x => maps_sorted x = true -> normalize x = x) a ->
  forallb maps_sorted a = true -> List.map normalize a = a.
Proof.
  induction 1 as [|x a Hx _ IH]; intro Hs; [reflexivity|].
  apply forallb_cons_true in Hs as [Hsx Hsa]. simpl.
  now rewrite (Hx Hsx), (IH Hsa).
Qed.

Lemma map_normalize_members_id (m : list (string * value)) :
  Forall (fun kx => maps_sorted (snd kx) = true -> normalize (snd kx) = snd kx) m ->
  forallb (fun kx => maps_sorted (snd kx)) m = true ->
  List.map (fun kx => (fst kx, normalize (snd kx))) m = m.
Proof.
  induction 1 as [|[k x] m Hx _ IH]; intro Hs; [reflexivity|].
  apply forallb_cons_true in Hs as [Hsx Hsm]. simpl in *.
  now rewrite (Hx Hsx), (IH Hsm).
Qed.

(** A tree whose objects are in ascending key order is its own normal form. *)
Lemma normalize_sorted (t : value) : maps_sorted t = true -> normalize t = t.
Proof.
  induction t as [| b | n | s | m IHm | a IHa] using value_tree_ind;
    intro Hs; try reflexivity.
  - simpl in Hs. apply andb_true_iff in Hs as [Hm Hs]. simpl.
    rewrite (map_normalize_members_id m IHm Hs).
    now rewrite (map_of_members_sorted_id m [] Hm).
  - simpl in Hs. simpl. now rewrite (map_normalize_id a IHa Hs).
Qed.

Lemma read_file_vector_file (n : nat) (fi : vector_file) :
  exists fi',
    read_file (S (String.length (vf_data fi))) (S n) fi =
    Some (fi', p <- feed dom_parser_init (vf_data fi) ;; document p).
Proof.
  unfold read_file.
  change (file_open mode_read fi)
    with (mk_vector_file (vf_data fi) 0 true, @ok unit tt).
  cbv beta iota.
  destruct (read_loop_vector_file n (S (String.length (vf_data fi)))
              (vf_data fi) "" dom_parser_init (Nat.lt_succ_diag_r _))
    as [fi' Hloop].
  simpl String.append in Hloop. simpl String.length in Hloop at 2.
  rewrite Hloop. eexists. reflexivity.
Qed.

(** C2. A tree the program can hold (objects in ascending key order, number
    texts in the number grammar) whose root is an object is read back
    unchanged from what [write] produced for it: through [to_string] and
    [read] over the text, and through [write] into a file and [read] over
    that file. *)
Theorem read_write_roundtrip (t : value) :
  well_formed t = true -> get_type t = type_object ->
  (exists text, to_string t = ok text /\ read text = ok t) /\
  (exists fi fi',
      write t empty_vector_file = (fi, ok tt) /\
      read_file (S (String.length (vf_data fi))) buf_size fi = Some (fi', ok t)).
Proof.
  intros Hwf Hobject.
  apply andb_true_iff in Hwf as [Hsorted Hvalid].
  destruct (get_type_object t Hobject) as [m ->].
  assert (Hread : read (json_text (VObject m)) = ok (VObject m)).
  { rewrite read_json_text by (assumption || discriminate).
    now rewrite normalize_sorted. }
  split.
  - exists (json_text (VObject m)). split; [apply to_string_object | exact Hread].
  - rewrite write_vector_file_object.
    destruct (read_file_vector_file 4095
                (mk_vector_file (json_text (VObject m))
                   (String.length (json_text (VObject m))) false))
      as [fi' Hfile].
    do 2 eexists. split; [reflexivity|].
    change buf_size with 4096. rewrite Hfile. cbn [vf_data].
    now rewrite <- read_feed, Hread.
Qed.

(** ** Chunk boundaries *)






Lemma read_write_roundtrip_witness :
  well_formed example_document = true /\
  get_type example_document = type_object /\
  (exists text, to_string example_document = ok text /\
                read text = ok example_document) /\
  (exists fi fi',
      write example_document empty_vector_file = (fi, ok tt) /\
      read_file (S (String.length (vf_data fi))) buf_size fi =
      Some (fi', ok example_document)).
Proof.
  split; [reflexivity|]. split; [reflexivity|].
  apply (read_write_roundtrip example_document); reflexivity.
Defined.

(** ** Number literals *)

Lemma to_string_ok (v : value) (text : string) :
  to_string v = ok text -> exists m, v = VObject m /\ text = json_text (VObject m).
Proof.
  intro Hts. destruct v as [| b | n | s | m | a];
    try (rewrite to_string_not_object in Hts by discriminate; discriminate Hts).
  exists m. split; [reflexivity|].
  rewrite to_string_object in Hts. now inversion Hts.
Qed.

(** C3, as the code has it. [to_string] on what [read] returns for the bare
    text 3.1400 does not give the text back: no value at all has that
    text as its [to_string], which begins with a brace or fails. *)
Lemma number_root_to_string_counterexample :
  ~ (exists v, read "3.1400" = ok v /\ to_string v = ok "3.1400").
Proof.
  intros [v [_ Hts]]. apply to_string_ok in Hts as [m [_ Htext]].
  discriminate Htext.
Qed.

(** C3, amended. A number literal is stored and written verbatim: the text
    of an object with a member whose value is a number in the number
    grammar is read as that object, holding the literal's text, and
    [to_string] of what was read is the text again; [write_internal] sends
    the stored text of a number to the file as it is; and [to_string] on a
    root that is not an object fails with the invalid-root error. *)
Theorem number_literal_fidelity (k : string) (literal : string) :
  number_grammar literal = true ->
  let text := json_text (VObject [(k, number_of literal)]) in
  (exists v, read text = ok v /\
             v = VObject [(k, number_of literal)] /\
             to_string v = ok text) /\
  (forall (F : Type) (file_F : file F) n,
      write_internal (F := F) (VNumber n) = file_write (get_string n)) /\
  (forall v, get_type v <> type_object -> to_string v = throw invalid_root).
Proof.
  intros Hgrammar text. split; [|split].
  - exists (VObject [(k, number_of literal)]). split; [|split].
    + unfold text. rewrite read_json_text.
      * reflexivity.
      * simpl. now rewrite Hgrammar.
      * discriminate.
    + reflexivity.
    + apply to_string_object.
  - reflexivity.
  - apply to_string_not_object.
Qed.

Lemma number_literal_fidelity_witness :
  number_grammar "3.1400" = true /\
  (exists v, read (dq "{'x':3.1400}") = ok v /\
             v = VObject [("x", number_of "3.1400")] /\
             to_string v = ok (dq "{'x':3.1400}")).
Proof.
  split; [reflexivity|].
  exact (proj1 (number_literal_fidelity "x" "3.1400" eq_refl)).
Defined.

(** ** The root *)

(** No push parser whose result does not depend on the chunking can report
    the number 42 when it is fed the text 42 and the number 422 when it is
    fed the text 422: after the first two bytes it cannot know whether the
    number is over.  [read] hands the bytes to [feed] and has no call for
    the end of the input, so what it returns for a bare number at the very
    end of the input is decided by [parser.hpp] alone. *)
Section AnyPushParser.
Variable state : Type.
Variable feed_any : state -> string -> result (list event * state).
Hypothesis feed_any_app :
  forall p s1 s2,
    feed_any p (s1 ++ s2) =
    match feed_any p s1 with
    | inl e => inl e
    | inr (evs1, p1) =>
        match feed_any p1 s2 with
        | inl e => inl e
        | inr (evs2, p2) => inr ((evs1 ++ evs2)%list, p2)
        end
    end.

Lemma no_feed_ends_a_number (p0 p1 p2 : state) :
  feed_any p0 "42" = ok ([number_parsed "42"], p1) ->
  feed_any p0 "422" <> ok ([number_parsed "422"], p2).
Proof.
  intros H42 H422.
  change "422" with ("42" ++ "2") in H422.
  rewrite feed_any_app, H42 in H422. unfold ok in H422.
  destruct (feed_any p1 "2") as [e|[evs2 p2']]; discriminate H422.
Qed.
End AnyPushParser.

(** ** Empty input *)

Lemma document_ok (p : dom_parser) (v : value) :
  document p = ok v <->
  List.length (stack p) = 1 /\
  ((doc p = VArray [] /\ v = VNull) \/ exists rest, doc p = VArray (v :: rest)).
Proof.
  unfold document.
  destruct (Nat.eqb_spec (List.length (stack p)) 1) as [Hlen|Hlen]; simpl.
  - destruct (doc p) as [| b | n | s | m | [|front a]]; simpl; split;
      try discriminate;
      try (intros [_ [[Hdoc _]|[rest Hdoc]]]; discriminate Hdoc).
    + intro Hv. inversion Hv. auto.
    + intros [_ [[_ ->]|[rest Hdoc]]]; [reflexivity | discriminate Hdoc].
    + intro Hv. inversion Hv; subst. split; [exact Hlen|]. right. now exists a.
    + intros [_ [[Hdoc _]|[rest Hdoc]]]; [discriminate Hdoc|].
      now inversion Hdoc.
  - split; [discriminate|]. intros [Hlen' _]. contradiction.
Qed.

(** C9. [read] of empty input is null, for a span, a C string and a null
    pointer; in general [read] feeds the whole input to the parser and
    returns the first value of the builder's top-level array, or null when
    that array is empty. *)
Theorem read_empty_is_null :
  read "" = ok VNull /\
  read_c_str (Some "") = ok VNull /\
  read_c_str None = ok VNull /\
  read_std_string "" = ok VNull /\
  (forall data, read data = (p <- feed dom_parser_init data ;; document p)) /\
  (forall p v,
      document p = ok v <->
      List.length (stack p) = 1 /\
      ((doc p = VArray [] /\ v = VNull) \/
       exists rest, doc p = VArray (v :: rest))).
Proof.
  repeat (split; [vm_compute; reflexivity|]).
  split; [exact read_feed | exact document_ok].
Qed.

(** ** Duplicate keys *)

Lemma find_last_normalized (k : string) (members : list (string * value)) :
  find_last k (List.map (fun kx => (fst kx, normalize (snd kx))) members) =
  option_map normalize (find_last k members).
Proof.
  induction members as [|[k' x] members IH]; simpl; [reflexivity|].
  rewrite IH. destruct (find_last k members); simpl; [reflexivity|].
  now destruct (String.eqb k k').
Qed.

Lemma map_sorted_NoDup (m : object_type) :
  map_sorted m = true -> NoDup (List.map fst m).
Proof.
  induction m as [|[k x] m IH]; intro Hs; simpl; constructor.
  - intro Hin. apply in_map_iff in Hin as [[k' x'] [Hk Hin]]. simpl in Hk.
    subst k'. apply (map_sorted_above k x m Hs) in Hin.
    now rewrite compare_refl in Hin.
  - apply IH. now apply map_sorted_tail in Hs.
Qed.

Lemma read_object_text (members : list (string * value)) :
  forallb (fun kx => numbers_valid (snd kx)) members = true ->
  read (json_text (VObject members)) =
  ok (VObject (map_of_members
                 (List.map (fun kx => (fst kx, normalize (snd kx))) members) [])).
Proof.
  intro Hvalid. now rewrite read_json_text by (assumption || discriminate).
Qed.

Lemma events_of_object_build (members : list (string * value)) :
  notify_all (events_of (VObject members)) dom_parser_init =
  ok (mk_dom_parser parser_init (VArray [normalize (VObject members)]) "" [[]]).
Proof.
  destruct (events_build (VObject members) parser_init (VArray []) "" [] []
              (VArray []) eq_refl eq_refl eq_refl) as [root' [Hstore Hnotify]].
  simpl in Hstore. inversion Hstore; subst root'.
  change dom_parser_init with (mk_dom_parser parser_init (VArray []) "" [[]]).
  unfold pointer in *. exact Hnotify.
Qed.

(** C5. Whatever the members of an object text are, in whatever order and
    however often a key is repeated, the object read has each key once and
    maps a key to the value of its last occurrence; so does the object the
    builder makes of the events of any such member list.  The text with
    the key a twice reads as the object with the single key a and the
    value 2, and the builder makes exactly that of the events of this
    text. *)
Theorem duplicate_key_last_wins :
  (forall members k x,
      forallb (fun kx => numbers_valid (snd kx)) members = true ->
      find_last k members = Some x ->
      exists m,
        read (json_text (VObject members)) = ok (VObject m) /\
        map_find k m = Some (normalize x) /\
        NoDup (List.map fst m)) /\
  (forall members k x,
      find_last k members = Some x ->
      exists m,
        notify_all (events_of (VObject members)) dom_parser_init =
        ok (mk_dom_parser parser_init (VArray [VObject m]) "" [[]]) /\
        map_find k m = Some (normalize x) /\
        NoDup (List.map fst m)) /\
  json_text (VObject [("a", number_of "1"); ("a", number_of "2")]) =
    dq "{'a':1,'a':2}" /\
  read (dq "{'a':1,'a':2}") = ok (VObject [("a", number_of "2")]) /\
  notify_all
    [object_start; key_parsed "a"; number_parsed "1";
     key_parsed "a"; number_parsed "2"; object_end] dom_parser_init =
  ok (mk_dom_parser parser_init (VArray [VObject [("a", number_of "2")]]) "" [[]]).
Proof.
  assert (Hlast : forall members k x,
             find_last k members = Some x ->
             map_find k (map_of_members
                           (List.map (fun kx => (fst kx, normalize (snd kx)))
                              members) []) = Some (normalize x)).
  { intros members k x Hx.
    now rewrite map_find_of_members, find_last_normalized, Hx. }
  split; [|split; [|repeat split; vm_compute; reflexivity]].
  - intros members k x Hvalid Hx.
    eexists. split; [now apply read_object_text|]. split.
    + now apply Hlast.
    + apply map_sorted_NoDup. now apply map_of_members_keeps_sorted.
  - intros members k x Hx.
    eexists. split; [apply events_of_object_build|]. split.
    + now apply Hlast.
    + apply map_sorted_NoDup. now apply map_of_members_keeps_sorted.
Qed.

Lemma duplicate_key_last_wins_witness :
  forallb (fun kx => numbers_valid (snd kx)) example_members = true /\
  find_last "a" example_members = Some (number_of "2") /\
  exists m,
    read (json_text (VObject example_members)) = ok (VObject m) /\
    map_find "a" m = Some (normalize (number_of "2")) /\
    NoDup (List.map fst m).
Proof.
  split; [reflexivity|]. split; [reflexivity|].
  apply (proj1 duplicate_key_last_wins example_members "a" (number_of "2"));
    reflexivity.
Defined.

(** ** Key order *)

Lemma json_members_join (kx : string * value) (m : list (string * value)) :
  member_text kx ++ json_members json_text false m =
  join comma (List.map member_text (kx :: m)).
Proof.
  revert kx. induction m as [|[k' x'] m IH]; intro kx.
  - apply append_nil_r.
  - change (json_members json_text false ((k', x') :: m))
      with (comma ++ double_quote ++ escape_string k' ++ double_quote_and_colon ++
            json_text x' ++ json_members json_text false m).
    change (join comma (List.map member_text (kx :: (k', x') :: m)))
      with (member_text kx ++ comma ++
            join comma (List.map member_text ((k', x') :: m))).
    rewrite <- IH. unfold member_text at 3. simpl fst. simpl snd.
    now rewrite !append_assoc.
Qed.

Lemma json_elements_join (x : value) (a : list value) :
  json_text x ++ json_elements json_text false a =
  join comma (List.map json_text (x :: a)).
Proof.
  revert x. induction a as [|x' a IH]; intro x.
  - apply append_nil_r.
  - change (json_elements json_text false (x' :: a))
      with (comma ++ json_text x' ++ json_elements json_text false a).
    change (join comma (List.map json_text (x :: x' :: a)))
      with (json_text x ++ comma ++ join comma (List.map json_text (x' :: a))).
    now rewrite <- IH.
Qed.

Lemma json_text_object (m : object_type) :
  json_text (VObject m) = "{" ++ join "," (List.map member_text m) ++ "}".
Proof.
  destruct m as [|[k x] m]; [reflexivity|].
  rewrite <- json_members_join.
  change (json_text (VObject ((k, x) :: m)))
    with ("{" ++ (double_quote ++ escape_string k ++ double_quote_and_colon ++
                  json_text x ++ json_members json_text false m) ++ "}").
  unfold member_text. cbn [fst snd]. now rewrite !append_assoc.
Qed.

Lemma json_text_array (a : array_type) :
  json_text (VArray a) = "[" ++ join "," (List.map json_text a) ++ "]".
Proof.
  destruct a as [|x a]; [reflexivity|].
  rewrite <- json_elements_join. reflexivity.
Qed.

(** *** Every object [read] returns is in ascending key order *)

Lemma forallb_nth_error {A} (f : A -> bool) (l : list A) (i : nat) (y : A) :
  forallb f l = true -> nth_error l i = Some y -> f y = true.
Proof.
  intros Hall Hn. apply nth_error_In in Hn.
  now apply (proj1 (forallb_forall f l) Hall).
Qed.

Lemma forallb_list_replace {A} (f : A -> bool) (l : list A) (i : nat) (x : A) :
  forallb f l = true -> f x = true -> forallb f (list_replace i x l) = true.
Proof.
  revert i. induction l as [|y l IH]; intros [|i] Hall Hx; simpl in *;
    try reflexivity; apply andb_true_iff in Hall as [Hy Hl];
    apply andb_true_iff; auto.
Qed.

Lemma forallb_map_find (f : value -> bool) (m : object_type) (k : string)
    (y : value) :
  forallb (fun kx => f (snd kx)) m = true -> map_find k m = Some y -> f y = true.
Proof.
  intros Hall Hf. apply map_find_In in Hf.
  now apply (proj1 (forallb_forall _ m) Hall (k, y)).
Qed.

Lemma forallb_map_replace (f : value -> bool) (m : object_type) (k : string)
    (x : value) :
  forallb (fun kx => f (snd kx)) m = true -> f x = true ->
  forallb (fun kx => f (snd kx)) (map_replace k x m) = true.
Proof.
  induction m as [|[k' y] m IH]; intros Hall Hx; simpl in *; [reflexivity|].
  apply andb_true_iff in Hall as [Hy Hm].
  destruct (String.eqb k k'); simpl; apply andb_true_iff; auto.
Qed.

Lemma forallb_map_insert (f : value -> bool) (m : object_type) (k : string)
    (x : value) :
  forallb (fun kx => f (snd kx)) m = true -> f x = true ->
  forallb (fun kx => f (snd kx)) (map_insert k x m) = true.
Proof.
  induction m as [|[k' y] m IH]; intros Hall Hx; simpl in *.
  - now rewrite Hx.
  - apply andb_true_iff in Hall as [Hy Hm].
    destruct (String.compare k k'); simpl; rewrite ?Hx, ?Hy, ?Hm; auto.
Qed.

Lemma map_replace_sorted (k : string) (x : value) (m : object_type) :
  map_sorted (map_replace k x m) = map_sorted m.
Proof.
  induction m as [|[k' y] m IH]; simpl; [reflexivity|].
  destruct (String.eqb k k'); simpl; [reflexivity|].
  rewrite IH. f_equal.
  destruct m as [|[k0 y0] m]; simpl; [reflexivity|].
  now destruct (String.eqb k k0).
Qed.

Lemma load_sorted (p : pointer) :
  forall root c,
    maps_sorted root = true -> load root p = Some c -> maps_sorted c = true.
Proof.
  induction p as [|[i|k] p IH]; intros root c Hs Hload; simpl in Hload.
  - now inversion Hload; subst.
  - destruct root; try discriminate.
    destruct (nth_error a i) as [y|] eqn:Hn; [|discriminate].
    apply (IH y c); [|exact Hload].
    now apply (forallb_nth_error maps_sorted a i y).
  - destruct root; try discriminate.
    destruct (map_find k m) as [y|] eqn:Hf; [|discriminate].
    apply (IH y c); [|exact Hload].
    simpl in Hs. apply andb_true_iff in Hs as [_ Hs].
    now apply (forallb_map_find maps_sorted m k y).
Qed.

Lemma store_sorted (p : pointer) (x : value) :
  maps_sorted x = true ->
  forall root root',
    maps_sorted root = true -> store root p x = Some root' ->
    maps_sorted root' = true.
Proof.
  intro Hx. induction p as [|[i|k] p IH]; intros root root' Hs Hstore;
    simpl in Hstore.
  - now inversion Hstore; subst.
  - destruct root; try discriminate.
    destruct (nth_error a i) as [y|] eqn:Hn; [|discriminate].
    destruct (store y p x) as [y'|] eqn:Hy; [|discriminate].
    inversion Hstore; subst. simpl in *.
    apply forallb_list_replace; [exact Hs|].
    apply (IH y y'); [|exact Hy].
    now apply (forallb_nth_error maps_sorted a i y).
  - destruct root; try discriminate.
    destruct (map_find k m) as [y|] eqn:Hf; [|discriminate].
    destruct (store y p x) as [y'|] eqn:Hy; [|discriminate].
    inversion Hstore; subst. simpl in *.
    apply andb_true_iff in Hs as [Hm Hs].
    rewrite map_replace_sorted, Hm. simpl.
    apply forallb_map_replace; [exact Hs|].
    apply (IH y y'); [|exact Hy].
    now apply (forallb_map_find maps_sorted m k y).
Qed.

Lemma emplace_sorted (x : value) (d d' : dom_parser) :
  maps_sorted x = true -> maps_sorted (doc d) = true ->
  emplace x d = ok d' -> maps_sorted (doc d') = true.
Proof.
  intros Hx Hs. unfold emplace.
  destruct (stack d) as [|back rest]; [discriminate|].
  destruct (load (doc d) back) as [[| | | | m | a]|] eqn:Hload; try discriminate;
    pose proof (load_sorted back _ _ Hs Hload) as Hc; simpl in Hc.
  - destruct (store (doc d) back _) as [root'|] eqn:Hstore; [|discriminate].
    intro Hok. inversion Hok; subst. simpl.
    apply (store_sorted back _) with (root := doc d) (3 := Hstore);
      [|exact Hs].
    apply andb_true_iff in Hc as [Hm Hall]. simpl.
    rewrite (map_insert_sorted _ _ _ Hm). simpl.
    now apply forallb_map_insert.
  - destruct (store (doc d) back _) as [root'|] eqn:Hstore; [|discriminate].
    intro Hok. inversion Hok; subst. simpl.
    apply (store_sorted back _) with (root := doc d) (3 := Hstore);
      [|exact Hs].
    simpl. rewrite forallb_app, Hc. simpl. now rewrite Hx.
Qed.

Lemma emplace_and_push_sorted (t : type) (d d' : dom_parser) :
  maps_sorted (doc d) = true ->
  emplace_and_push t d = ok d' -> maps_sorted (doc d') = true.
Proof.
  intros Hs. unfold emplace_and_push.
  assert (Hx : maps_sorted (value_of_type t) = true) by now destruct t.
  destruct (stack d) as [|back rest]; [discriminate|].
  destruct (load (doc d) back) as [[| | | | m | a]|] eqn:Hload; try discriminate;
    pose proof (load_sorted back _ _ Hs Hload) as Hc; simpl in Hc.
  - destruct (store (doc d) back _) as [root'|] eqn:Hstore; [|discriminate].
    intro Hok. inversion Hok; subst. simpl.
    apply (store_sorted back _) with (root := doc d) (3 := Hstore);
      [|exact Hs].
    apply andb_true_iff in Hc as [Hm Hall]. simpl.
    rewrite (map_insert_sorted _ _ _ Hm). simpl.
    now apply forallb_map_insert.
  - destruct (store (doc d) back _) as [root'|] eqn:Hstore; [|discriminate].
    intro Hok. inversion Hok; subst. simpl.
    apply (store_sorted back _) with (root := doc d) (3 := Hstore);
      [|exact Hs].
    simpl. rewrite forallb_app, Hc. simpl. now rewrite Hx.
Qed.

Lemma notify_sorted (ev : event) (d d' : dom_parser) :
  maps_sorted (doc d) = true -> notify ev d = ok d' ->
  maps_sorted (doc d') = true.
Proof.
  intro Hs. destruct ev; simpl;
    try (now apply emplace_and_push_sorted);
    try (now apply emplace_sorted).
  - unfold on_object_end, pop_back. destruct (stack d); [discriminate|].
    intro Hok. now inversion Hok; subst.
  - unfold on_array_end, pop_back. destruct (stack d); [discriminate|].
    intro Hok. now inversion Hok; subst.
  - unfold on_key_parsed. intro Hok. now inversion Hok; subst.
Qed.

Lemma notify_all_sorted (evs : list event) :
  forall d d',
    maps_sorted (doc d) = true -> notify_all evs d = ok d' ->
    maps_sorted (doc d') = true.
Proof.
  induction evs as [|ev evs IH]; intros d d' Hs Hok; simpl in Hok.
  - now inversion Hok; subst.
  - destruct (notify ev d) as [e|d1] eqn:Hev; [discriminate|].
    apply (IH d1 d'); [|exact Hok]. now apply (notify_sorted ev d d1).
Qed.

Lemma feed_sorted (chunk : string) :
  forall d d',
    maps_sorted (doc d) = true -> feed d chunk = ok d' ->
    maps_sorted (doc d') = true.
Proof.
  induction chunk as [|c chunk IH]; intros d d' Hs Hok; simpl in Hok.
  - now inversion Hok; subst.
  - destruct (parser_step (base d) c) as [e|[evs p']]; [discriminate|].
    simpl in Hok.
    destruct (notify_all evs _) as [e|d1] eqn:Hevs; [discriminate|].
    apply (IH d1 d'); [|exact Hok].
    now apply (notify_all_sorted evs _ d1) in Hevs.
Qed.

Lemma read_sorted (data : string) (v : value) :
  read data = ok v -> maps_sorted v = true.
Proof.
  rewrite read_feed.
  destruct (feed dom_parser_init data) as [e|d] eqn:Hfeed; [discriminate|].
  simpl. intro Hdoc.
  apply (feed_sorted data dom_parser_init d eq_refl) in Hfeed.
  apply document_ok in Hdoc as [_ [[_ ->]|[rest Hdoc]]]; [reflexivity|].
  rewrite Hdoc in Hfeed. simpl in Hfeed.
  now apply andb_true_iff in Hfeed.
Qed.

Lemma members_valid_permutation (ms1 ms2 : list (string * value)) :
  Permutation ms1 ms2 ->
  forallb (fun kx => numbers_valid (snd kx)) ms1 = true ->
  forallb (fun kx => numbers_valid (snd kx)) ms2 = true.
Proof.
  intros Hperm Hall. apply forallb_forall. intros kx Hin.
  apply (proj1 (forallb_forall _ ms1) Hall).
  apply Permutation_in with ms2; [now apply Permutation_sym | exact Hin].
Qed.

(** C6. [write] emits the members of an object in the order of the map,
    which is ascending key order in every value [read] returns, and the
    elements of an array in their order.  Two object texts with the same
    members under different keys, in different orders, read as the same
    value, which has one serialization: the order of the input is gone. *)
Theorem key_order_is_canonical :
  (forall m, json_text (VObject m) =
             "{" ++ join "," (List.map member_text m) ++ "}") /\
  (forall a, json_text (VArray a) =
             "[" ++ join "," (List.map json_text a) ++ "]") /\
  (forall m, to_string (VObject m) =
             ok ("{" ++ join "," (List.map member_text m) ++ "}")) /\
  (forall data v, read data = ok v -> maps_sorted v = true) /\
  (forall k x m, map_sorted m = true -> map_sorted (map_insert k x m) = true) /\
  (forall ms1 ms2,
      Permutation ms1 ms2 -> NoDup (List.map fst ms1) ->
      forallb (fun kx => numbers_valid (snd kx)) ms1 = true ->
      exists v,
        read (json_text (VObject ms1)) = ok v /\
        read (json_text (VObject ms2)) = ok v /\
        to_string v = ok (json_text v)).
Proof.
  split; [exact json_text_object|].
  split; [exact json_text_array|].
  split; [intro m; now rewrite to_string_object, json_text_object|].
  split; [exact read_sorted|].
  split; [exact map_insert_sorted|].
  intros ms1 ms2 Hperm Hnd Hvalid.
  pose proof (members_valid_permutation ms1 ms2 Hperm Hvalid) as Hvalid2.
  eexists. split; [now apply read_object_text|]. split.
  - rewrite (read_object_text ms2 Hvalid2). do 2 f_equal.
    symmetry. apply map_of_members_permutation.
    + now rewrite map_map.
    + now apply Permutation_map.
  - apply to_string_object.
Qed.

Lemma key_order_is_canonical_witness :
  Permutation [("b", number_of "2"); ("a", number_of "1")]
              [("a", number_of "1"); ("b", number_of "2")] /\
  exists v,
    read (dq "{'b':2,'a':1}") = ok v /\
    read (dq "{'a':1,'b':2}") = ok v /\
    to_string v = ok (json_text v).
Proof.
  split; [apply perm_swap|].
  apply (proj2 (proj2 (proj2 (proj2 (proj2 key_order_is_canonical))))
           [("b", number_of "2"); ("a", number_of "1")]
           [("a", number_of "1"); ("b", number_of "2")]).
  - apply perm_swap.
  - repeat constructor; simpl; intuition discriminate.
  - reflexivity.
Defined.

(** ** The model at work *)

Example number_grammar_accepts :
  List.map number_grammar ["0"; "-0"; "42"; "3.1400"; "-2.50e+3"; "1E9"; "0.5e-7"] =
  [true; true; true; true; true; true; true].
Proof. reflexivity. Qed.

Example number_grammar_rejects :
  List.map number_grammar [""; "-"; "01"; "1."; ".5"; "+1"; "1e"; "1e+"; "0x1"; "1 "] =
  [false; false; false; false; false; false; false; false; false; false].
Proof. reflexivity. Qed.

Example read_nested_document :
  read (dq "{ 'b' : [1, 2.5e3, true, false, null, 'x\ny'], 'a' : {} }") =
  ok (VObject
        [("a", VObject []);
         ("b", VArray [number_of "1"; number_of "2.5e3"; VBoolean true;
                       VBoolean false; VNull;
                       VString (String "x" (String "010" "y"))])]).
Proof. vm_compute. reflexivity. Qed.

Example read_unicode_escape :
  read (dq "['\u0041\u00e9\u20AC']") =
  ok (VArray [VString (String "A" (String "195" (String "169"
                (String "226" (String "130" (String "172" ""))))))]).
Proof. vm_compute. reflexivity. Qed.

Example read_raw_multibyte :
  read (String "[" (String "034" (String "195" (String "169" (String "034" "]"))))) =
  ok (VArray [VString (String "195" (String "169" ""))]).
Proof. vm_compute. reflexivity. Qed.

Example read_in_small_buffers :
  read_span 3 (dq "{'key':[true,{'n':-1.5}]}") =
  ok (VObject [("key", VArray [VBoolean true; VObject [("n", number_of "-1.5")]])]).
Proof. vm_compute. reflexivity. Qed.

Example read_trailing_comma :
  read "[1,]" = throw (malformed_json_error "]").
Proof. vm_compute. reflexivity. Qed.

Example read_invalid_escape :
  read (dq "['\q']") = throw (malformed_json_error "q").
Proof. vm_compute. reflexivity. Qed.

Example read_unterminated_array :
  read "[1,2" = throw assertion_failed.
Proof. vm_compute. reflexivity. Qed.

Example to_string_example_document :
  to_string example_document =
  ok (dq "{'a':[1,'x\'\/\\y',null],'b':{'c':true,'d':-2.50e+3}}").
Proof. vm_compute. reflexivity. Qed.

(** * Further properties *)

(** ** Construction and kind tests *)

(** X1. A value constructed for a kind has that kind and holds the zero
    value of the kind: the accessor of the kind returns false, the literal
    0, the empty string, the empty array or the empty object, and every
    other accessor throws. *)
Theorem value_of_type_default :
  (forall t, get_type (value_of_type t) = t) /\
  (forall t t', is_ t' (value_of_type t) = true <-> t' = t) /\
  boolean (value_of_type type_boolean) = ok false /\
  number (value_of_type type_number) = ok (mk_string_number "0") /\
  string_ (value_of_type type_string) = ok "" /\
  array (value_of_type type_array) = ok [] /\
  object (value_of_type type_object) = ok [] /\
  (forall t, t <> type_boolean -> ~ succeeds (boolean (value_of_type t))) /\
  (forall t, t <> type_number -> ~ succeeds (number (value_of_type t))) /\
  (forall t, t <> type_string -> ~ succeeds (string_ (value_of_type t))) /\
  (forall t, t <> type_array -> ~ succeeds (array (value_of_type t))) /\
  (forall t, t <> type_object -> ~ succeeds (object (value_of_type t))).
Proof.
  split; [now intros []|].
  split; [intros [] []; simpl; split; (reflexivity || discriminate)|].
  repeat (split; [reflexivity|]).
  repeat split; intros [] Hne [x Hx]; try discriminate Hx; now contradiction Hne.
Qed.

(** X2. Exactly one of the six kind tests holds of a value, it is the one
    of [get_type], and a typed accessor succeeds exactly when the test of
    its kind holds: testing before accessing never throws. *)
Theorem kind_tests_guard_accessors (v : value) :
  List.length
    (filter (fun b : bool => b)
       [is_null v; is_boolean v; is_number v; is_string v; is_object v;
        is_array v]) = 1 /\
  (is_null v = true <-> get_type v = type_null) /\
  (is_boolean v = true <-> succeeds (boolean v)) /\
  (is_number v = true <-> succeeds (number v)) /\
  (is_string v = true <-> succeeds (string_ v)) /\
  (is_array v = true <-> succeeds (array v)) /\
  (is_object v = true <-> succeeds (object v)) /\
  (is_boolean v = true <-> succeeds (boolean_ref v)) /\
  (is_number v = true <-> succeeds (number_ref v)) /\
  (is_string v = true <-> succeeds (string_ref v)) /\
  (is_array v = true <-> succeeds (array_ref v)) /\
  (is_object v = true <-> succeeds (object_ref v)).
Proof.
  unfold succeeds.
  destruct v; cbn; repeat split;
    try reflexivity; try discriminate;
    try (intros [x Hx]; discriminate Hx);
    try (intros _; eexists; reflexivity).
Qed.

(** X3. What a mutable accessor returns is a reference to the payload:
    storing through it what it holds leaves the value as it was, what is
    stored through it is what the read-only accessor of the same kind then
    returns, and a store never changes the kind. *)
Theorem mutable_accessor_laws (v : value) :
  (forall r, boolean_ref v = ok r ->
             boolean v = ok (deref r) /\ assign r (deref r) = v /\
             forall x, boolean (assign r x) = ok x /\
                       get_type (assign r x) = get_type v) /\
  (forall r, number_ref v = ok r ->
             number v = ok (deref r) /\ assign r (deref r) = v /\
             forall x, number (assign r x) = ok x /\
                       get_type (assign r x) = get_type v) /\
  (forall r, string_ref v = ok r ->
             string_ v = ok (deref r) /\ assign r (deref r) = v /\
             forall x, string_ (assign r x) = ok x /\
                       get_type (assign r x) = get_type v) /\
  (forall r, array_ref v = ok r ->
             array v = ok (deref r) /\ assign r (deref r) = v /\
             forall x, array (assign r x) = ok x /\
                       get_type (assign r x) = get_type v) /\
  (forall r, object_ref v = ok r ->
             object v = ok (deref r) /\ assign r (deref r) = v /\
             forall x, object (assign r x) = ok x /\
                       get_type (assign r x) = get_type v).
Proof.
  repeat match goal with |- _ /\ _ => split end;
    intros r Hr; destruct v; cbn in Hr; try discriminate Hr;
    inversion Hr; subst r; repeat split.
Qed.

(** ** More on escaping *)

Lemma escape_char_cases (c : ascii) :
  (is_escaped_character c = false /\ escape_char c = String c "") \/
  (is_escaped_character c = true /\
   exists x, escape_char c = String "\" (String x "") /\
             is_escape_letter x = true).
Proof.
  destruct c as [[] [] [] [] [] [] [] []];
    try (left; split; reflexivity);
    right; (split; [reflexivity | eexists; split; reflexivity]).
Qed.

Lemma escape_char_letter_inj (c1 c2 : ascii) (x : ascii) :
  escape_char c1 = String "\" (String x "") ->
  escape_char c2 = String "\" (String x "") -> c1 = c2.
Proof.
  intros H1 H2.
  destruct (escape_char_cases c1) as [[_ E1]|[S1 _]];
    [rewrite E1 in H1; discriminate H1|].
  destruct (escape_char_cases c2) as [[_ E2]|[S2 _]];
    [rewrite E2 in H2; discriminate H2|].
  destruct c1 as [[] [] [] [] [] [] [] []]; try discriminate S1;
    destruct c2 as [[] [] [] [] [] [] [] []]; try discriminate S2;
    try reflexivity; cbv in H1, H2; congruence.
Qed.

Lemma not_escaped_not_backslash (c : ascii) :
  is_escaped_character c = false -> c <> "\"%char.
Proof. intros H ->. discriminate H. Qed.

(** X4. [escape_string] loses nothing: different strings have different
    escaped texts. *)
Theorem escape_string_injective (s1 s2 : string) :
  escape_string s1 = escape_string s2 -> s1 = s2.
Proof.
  revert s2. induction s1 as [|c1 s1 IH]; intros [|c2 s2] Heq.
  - reflexivity.
  - rewrite escape_string_cons in Heq. change (escape_string "") with "" in Heq.
    destruct (escape_char_cases c2) as [[_ E]|[_ [x [E _]]]];
      rewrite E in Heq; discriminate Heq.
  - rewrite escape_string_cons in Heq. change (escape_string "") with "" in Heq.
    destruct (escape_char_cases c1) as [[_ E]|[_ [x [E _]]]];
      rewrite E in Heq; discriminate Heq.
  - rewrite !escape_string_cons in Heq.
    destruct (escape_char_cases c1) as [[P1 E1]|[_ [x1 [E1 _]]]];
      destruct (escape_char_cases c2) as [[P2 E2]|[_ [x2 [E2 _]]]];
      rewrite E1, E2 in Heq; simpl in Heq; inversion Heq; subst.
    + f_equal. now apply IH.
    + now apply not_escaped_not_backslash in P1.
    + now apply not_escaped_not_backslash in P2.
    + rewrite (escape_char_letter_inj c1 c2 x2 E1 E2). f_equal. now apply IH.
Qed.

Lemma escape_string_injective_witness :
  escape_string (dq "say 'a/b'") = escape_string (dq "say 'a/b'") /\
  dq "say 'a/b'" = dq "say 'a/b'".
Proof.
  split; [reflexivity|].
  apply (escape_string_injective (dq "say 'a/b'") (dq "say 'a/b'")).
  reflexivity.
Defined.

(** X5. The escaped text is at least as long as the string and at most
    twice as long. *)
Theorem escape_string_length (s : string) :
  String.length s <= String.length (escape_string s) <= 2 * String.length s.
Proof.
  induction s as [|c s IH]; [simpl; lia|].
  rewrite escape_string_cons, length_append.
  destruct (escape_char_cases c) as [[_ E]|[_ [x [E _]]]]; rewrite E; simpl; lia.
Qed.

Lemma well_escaped_escape_char (c : ascii) (rest : string) :
  well_escaped (escape_char c ++ rest) = well_escaped rest.
Proof.
  destruct c as [[] [] [] [] [] [] [] []]; try reflexivity;
    destruct rest; reflexivity.
Qed.

(** X6. The escaped text consists of two-byte escapes, a backslash followed
    by one of the eight escape letters, and of bytes that need no escape:
    outside an escape it holds no quote, no backslash, no slash and none of
    backspace, form feed, newline, carriage return and tab, so it can be
    put between quotes as it is. *)
Theorem escape_string_well_escaped (s : string) :
  well_escaped (escape_string s) = true.
Proof.
  induction s as [|c s IH]; [reflexivity|].
  now rewrite escape_string_cons, well_escaped_escape_char.
Qed.

(** ** Errors of the serializer *)

Section SinkErrors.
Context {F : Type} `{file F}.

Lemma io_bind_error {A B} (m : io F A) (k : A -> io F B) (fi : F) (e : error) :
  snd (io_bind m k fi) = inl e ->
  snd (m fi) = inl e \/ exists a fi', snd (k a fi') = inl e.
Proof.
  unfold io_bind. destruct (m fi) as [fi' [e'|a]]; simpl; intro Herr.
  - left. now inversion Herr.
  - right. exists a, fi'. exact Herr.
Qed.

Lemma file_write_error (s : string) (fi : F) (e : error) :
  snd (file_write s fi) = inl e -> write_can_fail e.
Proof. intro Herr. now exists s, fi. Qed.

Lemma write_elements_error (a : list value) :
  Forall (fun x => forall fi e, snd (write_internal x fi) = inl e -> write_can_fail e) a ->
  forall at_begin fi e,
    snd (write_elements write_internal at_begin a fi) = inl e -> write_can_fail e.
Proof.
  induction 1 as [|x a Hx _ IH]; intros at_begin fi e Herr; simpl in Herr.
  - discriminate Herr.
  - apply io_bind_error in Herr as [Herr|[_ [fi1 Herr]]].
    + destruct at_begin; [discriminate Herr | now apply file_write_error in Herr].
    + apply io_bind_error in Herr as [Herr|[_ [fi2 Herr]]]; eauto.
Qed.

Lemma write_members_error (m : list (string * value)) :
  Forall (fun kx => forall fi e, snd (write_internal (snd kx) fi) = inl e ->
                                write_can_fail e) m ->
  forall at_begin fi e,
    snd (write_members write_internal at_begin m fi) = inl e -> write_can_fail e.
Proof.
  induction 1 as [|[k x] m Hx _ IH]; intros at_begin fi e Herr; simpl in *.
  - discriminate Herr.
  - apply io_bind_error in Herr as [Herr|[_ [fi1 Herr]]].
    + destruct at_begin; [discriminate Herr | now apply file_write_error in Herr].
    + repeat (apply io_bind_error in Herr as [Herr|[_ [? Herr]]];
              [now apply file_write_error in Herr|]).
      apply io_bind_error in Herr as [Herr|[_ [? Herr]]]; eauto.
Qed.

Lemma write_internal_error (v : value) :
  forall fi e, snd (write_internal v fi) = inl e -> write_can_fail e.
Proof.
  induction v as [| b | n | s | m IHm | a IHa] using value_tree_ind;
    intros fi e Herr; simpl in Herr.
  - now apply file_write_error in Herr.
  - destruct b; now apply file_write_error in Herr.
  - now apply file_write_error in Herr.
  - repeat (apply io_bind_error in Herr as [Herr|[_ [? Herr]]];
            [now apply file_write_error in Herr|]).
    now apply file_write_error in Herr.
  - apply io_bind_error in Herr as [Herr|[_ [? Herr]]];
      [now apply file_write_error in Herr|].
    apply io_bind_error in Herr as [Herr|[_ [? Herr]]];
      [now apply write_members_error in Herr|].
    now apply file_write_error in Herr.
  - apply io_bind_error in Herr as [Herr|[_ [? Herr]]];
      [now apply file_write_error in Herr|].
    apply io_bind_error in Herr as [Herr|[_ [? Herr]]];
      [now apply write_elements_error in Herr|].
    now apply file_write_error in Herr.
Qed.
End SinkErrors.

(** X7. The serializer throws nothing of its own: an error of
    [write_internal] is an error of a write to the file, and an error of
    [write] is the invalid-root error for a root that is not an object, or
    else an error of opening the file or of a write to it. *)
Theorem serializer_errors_come_from_the_sink (F : Type) (file_F : file F)
    (v : value) (fi : F) (e : error) :
  (snd (write_internal v fi) = inl e -> write_can_fail e) /\
  (snd (write v fi) = inl e ->
   (get_type v <> type_object /\ e = invalid_root) \/
   (get_type v = type_object /\ (open_can_fail e \/ write_can_fail e))).
Proof.
  split; [apply write_internal_error|].
  unfold write. destruct v as [| b | n | s | m | a];
    try (intro Herr; left; split; [discriminate | now inversion Herr]).
  change (negb (is_ type_object (VObject m))) with false. cbv iota.
  unfold with_guard. intro Herr. right. split; [reflexivity|].
  destruct (file_open mode_create fi) as [fi1 [e1|[]]] eqn:Hopen.
  - left. exists fi. rewrite Hopen. exact Herr.
  - right. destruct (write_internal (VObject m) fi1) as [fi2 r] eqn:Hw.
    simpl in Herr. subst r.
    apply (write_internal_error (VObject m) fi1). now rewrite Hw.
Qed.

(** ** Reading a string *)

Lemma strlen_prefix_zero_free (s : string) :
  zero_free s = true -> strlen_prefix s = s.
Proof.
  induction s as [|c s IH]; [reflexivity|]. simpl.
  destruct (Ascii.eqb c "000"); simpl; [discriminate|].
  intro Hs. now rewrite IH.
Qed.

Lemma strlen_prefix_app (s1 s2 : string) :
  zero_free s1 = true ->
  strlen_prefix (s1 ++ String "000" s2) = s1.
Proof.
  induction s1 as [|c s1 IH]; [reflexivity|]. simpl.
  destruct (Ascii.eqb c "000"); simpl; [discriminate|].
  intro Hs. now rewrite IH.
Qed.

(** X8. [read] of a [std::string] goes through its C string: it reads the
    text up to the first zero byte and nothing behind it.  A text without
    a zero byte is read whole, as by [read] over the span. *)
Theorem read_std_string_stops_at_zero (s1 s2 : string) :
  zero_free s1 = true ->
  read_std_string (s1 ++ String "000" s2) = read s1 /\
  read_std_string s1 = read s1 /\
  read_c_str (Some (s1 ++ String "000" s2)) = read_c_str (Some s1).
Proof.
  intro Hs. unfold read_std_string, read_c_str.
  now rewrite strlen_prefix_app, strlen_prefix_zero_free.
Qed.

Lemma read_std_string_stops_at_zero_witness :
  zero_free "[1]" = true /\
  read_std_string ("[1]" ++ String "000" "]]") = read "[1]" /\
  read_std_string "[1]" = read "[1]" /\
  read_c_str (Some ("[1]" ++ String "000" "]]")) = read_c_str (Some "[1]").
Proof.
  split; [reflexivity|].
  apply (read_std_string_stops_at_zero "[1]" "]]"). reflexivity.
Defined.

(** ** More on the tree builder *)

(** X9. The builder makes of the events of a sequence of trees the array of
    these trees, each with its members inserted in the order of the events;
    trees whose objects are in ascending key order are rebuilt as they
    are, and the document is then the first of them. *)
Theorem builder_rebuilds_trees :
  (forall ts,
      notify_all (flat_map events_of ts) dom_parser_init =
      ok (mk_dom_parser parser_init (VArray (List.map normalize ts)) "" [[]])) /\
  (forall ts,
      forallb maps_sorted ts = true ->
      notify_all (flat_map events_of ts) dom_parser_init =
      ok (mk_dom_parser parser_init (VArray ts) "" [[]])) /\
  (forall t ts,
      forallb maps_sorted (t :: ts) = true ->
      bind (notify_all (flat_map events_of (t :: ts)) dom_parser_init) document =
      ok t).
Proof.
  assert (Hall : forall ts,
             notify_all (flat_map events_of ts) dom_parser_init =
             ok (mk_dom_parser parser_init (VArray (List.map normalize ts)) "" [[]])).
  { intro ts.
    destruct (builds_elements ts) with (p := parser_init) (root := VArray [])
      (back := @nil selector) (rest := @nil pointer) (acc := @nil value)
      as [root' [Hstore Hnotify]].
    - apply Forall_forall. intros t _. apply events_build.
    - reflexivity.
    - simpl in Hstore. inversion Hstore; subst root'.
      change dom_parser_init with (mk_dom_parser parser_init (VArray []) "" [[]]).
      unfold pointer in *. exact Hnotify. }
  assert (Hid : forall ts, forallb maps_sorted ts = true ->
                           List.map normalize ts = ts).
  { induction ts as [|t ts IH]; intro Hs; [reflexivity|].
    apply forallb_cons_true in Hs as [Ht Hts]. simpl.
    now rewrite (normalize_sorted t Ht), (IH Hts). }
  split; [exact Hall|]. split.
  - intros ts Hs. now rewrite Hall, (Hid ts Hs).
  - intros t ts Hs. now rewrite Hall, (Hid _ Hs).
Qed.

Lemma stack_chain_prefix (rest : list pointer) :
  forall p, stack_chain (p :: rest) ->
            forall q, In q rest -> exists s, s <> [] /\ p = (q ++ s)%list.
Proof.
  induction rest as [|q0 rest IH]; intros p Hchain q Hin; [contradiction|].
  destruct Hchain as [[sel Hp] Hrest]. destruct Hin as [<-|Hin].
  - exists [sel]. split; [discriminate | exact Hp].
  - destruct (IH q0 Hrest q Hin) as [s [Hs Hq0]].
    exists (s ++ [sel])%list. split.
    + now destruct s.
    + now rewrite Hp, Hq0, app_assoc.
Qed.

Lemma stack_chain_tail (p : pointer) (rest : list pointer) :
  stack_chain (p :: rest) -> stack_chain rest.
Proof. destruct rest as [|q rest]; [easy | now intros [_ Hrest]]. Qed.

Lemma store_keeps_container (s : pointer) (c y c' : value) :
  s <> [] -> store c s y = Some c' -> is_container c' = true.
Proof.
  destruct s as [|[i|k] s]; [congruence|..]; intros _ Hstore; simpl in Hstore;
    destruct c as [| | | | m | a]; try discriminate.
  - destruct (nth_error a i) as [z|]; [|discriminate].
    destruct (store z s y); [|discriminate]. now inversion Hstore.
  - destruct (map_find k m) as [z|]; [|discriminate].
    destruct (store z s y); [|discriminate]. now inversion Hstore.
Qed.

Lemma store_below_keeps_valid (root root' : value) (q s : pointer) (y : value) :
  s <> [] -> store root (q ++ s)%list y = Some root' ->
  points_to_container root' q.
Proof.
  intros Hs Hstore. rewrite store_app in Hstore.
  destruct (load root q) as [cq|]; [|discriminate].
  destruct (store cq s y) as [cq'|] eqn:Hcq; [|discriminate].
  exists cq'. split; [now apply load_store in Hstore|].
  now apply (store_keeps_container s cq y cq').
Qed.

Lemma attach_is_container (c : value) (key : string) (x : value) :
  is_container c = true -> is_container (attach c key x) = true.
Proof. now destruct c. Qed.

Lemma store_top_keeps_valid (root root' c : value) (key : string) (x : value)
    (back : pointer) (rest : list pointer) :
  stack_chain (back :: rest) -> is_container c = true ->
  store root back (attach c key x) = Some root' ->
  Forall (points_to_container root') (back :: rest).
Proof.
  intros Hchain Hc Hstore. constructor.
  - exists (attach c key x). split; [now apply load_store in Hstore|].
    now apply attach_is_container.
  - apply Forall_forall. intros q Hin.
    destruct (stack_chain_prefix rest back Hchain q Hin) as [s [Hs Hback]].
    subst back. exact (store_below_keeps_valid root root' q s _ Hs Hstore).
Qed.

Lemma emplace_stores (x : value) (p : parser) (root : value) (key : string)
    (back : pointer) (rest : list pointer) (c : value) :
  load root back = Some c -> is_container c = true ->
  exists root' key',
    store root back (attach c key x) = Some root' /\
    emplace x (mk_dom_parser p root key (back :: rest)) =
    ok (mk_dom_parser p root' key' (back :: rest)).
Proof.
  intros Hload Hc.
  destruct (store_some back (attach c key x) root c Hload) as [root' Hstore].
  exists root'.
  destruct c; try discriminate; eexists; (split; [exact Hstore|]);
    unfold emplace; simpl; rewrite Hload; simpl in Hstore; rewrite Hstore;
    reflexivity.
Qed.

Lemma emplace_and_push_stores (t : type) (p : parser) (root : value)
    (key : string) (back : pointer) (rest : list pointer) (c : value) :
  load root back = Some c -> is_container c = true ->
  exists root' key',
    store root back (attach c key (value_of_type t)) = Some root' /\
    emplace_and_push t (mk_dom_parser p root key (back :: rest)) =
    ok (mk_dom_parser p root' key'
          ((back ++ [child c key])%list :: back :: rest)).
Proof.
  intros Hload Hc.
  destruct (store_some back (attach c key (value_of_type t)) root c Hload)
    as [root' Hstore].
  exists root'.
  destruct c; try discriminate; eexists; (split; [exact Hstore|]);
    unfold emplace_and_push; simpl; rewrite Hload; simpl in Hstore;
    rewrite Hstore; reflexivity.
Qed.

Lemma emplace_keeps_valid (x : value) (d : dom_parser) :
  stack_valid d -> stack d <> [] ->
  exists d', emplace x d = ok d' /\ stack_valid d' /\ stack d' = stack d.
Proof.
  destruct d as [p root key [|back rest]]; intros [Hchain Hall] Hne;
    simpl in *; [congruence|].
  inversion Hall as [|? ? [c [Hload Hc]] _]; subst.
  destruct (emplace_stores x p root key back rest c Hload Hc)
    as [root' [key' [Hstore Hemplace]]].
  eexists. split; [exact Hemplace|]. split; [|reflexivity].
  split; [exact Hchain|]. simpl.
  now apply (store_top_keeps_valid root root' c key x).
Qed.

Lemma emplace_and_push_keeps_valid (t : type) (d : dom_parser) :
  t = type_object \/ t = type_array ->
  stack_valid d -> stack d <> [] ->
  exists d', emplace_and_push t d = ok d' /\ stack_valid d' /\
             List.length (stack d') = S (List.length (stack d)).
Proof.
  intro Ht.
  destruct d as [p root key [|back rest]]; intros [Hchain Hall] Hne;
    simpl in *; [congruence|].
  inversion Hall as [|? ? [c [Hload Hc]] _]; subst.
  destruct (emplace_and_push_stores t p root key back rest c Hload Hc)
    as [root' [key' [Hstore Hpush]]].
  eexists. split; [exact Hpush|]. split; [|reflexivity].
  split.
  - simpl. split; [now eexists | exact Hchain].
  - simpl. constructor.
    + exists (value_of_type t). split.
      * now apply (load_attached root root' c back key).
      * now destruct Ht as [-> | ->].
    + now apply (store_top_keeps_valid root root' c key (value_of_type t)).
Qed.

Lemma pop_back_keeps_valid (d : dom_parser) :
  stack_valid d -> stack d <> [] ->
  exists d', pop_back d = ok d' /\ stack_valid d' /\
             List.length (stack d') = Nat.pred (List.length (stack d)).
Proof.
  destruct d as [p root key [|back rest]]; intros [Hchain Hall] Hne;
    simpl in *; [congruence|].
  eexists. split; [reflexivity|]. split; [|reflexivity].
  split; simpl.
  - now apply stack_chain_tail in Hchain.
  - now inversion Hall.
Qed.

Lemma notify_empty_stack (ev : event) (d : dom_parser) :
  stack d = [] -> asserts_stack ev = true ->
  notify ev d = throw assertion_failed.
Proof.
  intros Hs Hev. destruct ev; try discriminate Hev; simpl;
    unfold on_object_start, on_array_start,
      on_string_parsed, on_number_parsed, on_boolean_parsed, on_null_parsed,
      emplace_and_push, emplace; now rewrite Hs.
Qed.

Lemma notify_empty_stack_fails (ev : event) (d : dom_parser) :
  stack d = [] ->
  match ev with
  | key_parsed _ => True
  | _ => exists e, notify ev d = throw e
  end.
Proof.
  intro Hs. destruct ev; simpl; try exact I;
    unfold on_object_start, on_object_end, on_array_start, on_array_end,
      on_string_parsed, on_number_parsed, on_boolean_parsed, on_null_parsed,
      emplace_and_push, emplace, pop_back; rewrite Hs; eexists; reflexivity.
Qed.

Lemma stack_empty_length (d : dom_parser) :
  Nat.eqb (List.length (stack d)) 0 = true -> stack d = [].
Proof. now destruct (stack d). Qed.

Lemma stack_nonempty_length (d : dom_parser) :
  Nat.eqb (List.length (stack d)) 0 = false -> stack d <> [].
Proof. now destruct (stack d). Qed.

Lemma notify_all_depth (evs : list event) :
  forall d,
    stack_valid d ->
    match depth_after (List.length (stack d)) evs with
    | Some n =>
        exists d', notify_all evs d = ok d' /\ stack_valid d' /\
                   List.length (stack d') = n
    | None => exists e, notify_all evs d = throw e
    end.
Proof.
  induction evs as [|ev evs IH]; intros d Hvalid.
  - simpl. now exists d.
  - assert (Hstep : forall d' n,
               notify ev d = ok d' -> stack_valid d' ->
               List.length (stack d') = n ->
               match depth_after n evs with
               | Some m =>
                   exists d'', notify_all (ev :: evs) d = ok d'' /\
                               stack_valid d'' /\ List.length (stack d'') = m
               | None => exists e, notify_all (ev :: evs) d = throw e
               end).
    { intros d' n Hev Hvalid' Hlen. simpl. rewrite Hev, bind_ok.
      specialize (IH d' Hvalid'). now rewrite Hlen in IH. }
    assert (Hempty : stack d = [] ->
               match ev with
               | key_parsed _ => True
               | _ => exists e, notify_all (ev :: evs) d = throw e
               end).
    { intro Hs. pose proof (notify_empty_stack_fails ev d Hs) as Hfail.
      destruct ev; try exact I; destruct Hfail as [e He]; exists e;
        cbn [notify_all]; now rewrite He. }
    destruct ev; cbn [depth_after];
      try (destruct (Nat.eqb (List.length (stack d)) 0) eqn:Hdepth;
           [ apply stack_empty_length in Hdepth; exact (Hempty Hdepth)
           | apply stack_nonempty_length in Hdepth ]).
    + destruct (emplace_and_push_keeps_valid type_object d (or_introl eq_refl)
                  Hvalid Hdepth) as [d' [Hev [Hvalid' Hlen]]].
      now apply (Hstep d').
    + destruct (pop_back_keeps_valid d Hvalid Hdepth) as [d' [Hev [Hvalid' Hlen]]].
      now apply (Hstep d').
    + destruct (emplace_and_push_keeps_valid type_array d (or_intror eq_refl)
                  Hvalid Hdepth) as [d' [Hev [Hvalid' Hlen]]].
      now apply (Hstep d').
    + destruct (pop_back_keeps_valid d Hvalid Hdepth) as [d' [Hev [Hvalid' Hlen]]].
      now apply (Hstep d').
    + apply (Hstep (mk_dom_parser (base d) (doc d) str (stack d)));
        [reflexivity | exact Hvalid | reflexivity].
    + destruct (emplace_keeps_valid (VString str) d Hvalid Hdepth)
        as [d' [Hev [Hvalid' Hlen]]].
      apply (Hstep d'); [exact Hev | exact Hvalid' | now rewrite Hlen].
    + destruct (emplace_keeps_valid (VNumber (mk_string_number str)) d Hvalid Hdepth)
        as [d' [Hev [Hvalid' Hlen]]].
      apply (Hstep d'); [exact Hev | exact Hvalid' | now rewrite Hlen].
    + destruct (emplace_keeps_valid (VBoolean b) d Hvalid Hdepth)
        as [d' [Hev [Hvalid' Hlen]]].
      apply (Hstep d'); [exact Hev | exact Hvalid' | now rewrite Hlen].
    + destruct (emplace_keeps_valid VNull d Hvalid Hdepth)
        as [d' [Hev [Hvalid' Hlen]]].
      apply (Hstep d'); [exact Hev | exact Hvalid' | now rewrite Hlen].
Qed.

Lemma dom_parser_init_valid : stack_valid dom_parser_init.
Proof.
  split; [reflexivity|]. constructor; [|constructor].
  exists (VArray []). now split.
Qed.

(** X10. The stack discipline of the builder.  The pointers on the stack
    stay nested and valid, each addressing an array or an object of the
    document, whatever events arrive.  As long as every event finds a
    pointer on the stack where its handler needs one, the events succeed
    and leave a stack of the size [depth_after] gives, one more for every
    start event and one less for every end event.  A handler that begins
    with the assertion that the stack is not empty, those of the start and
    the value events, fails that assertion on an empty stack.  An end
    event on an empty stack is left out: the source does not define it. *)
Theorem builder_stack_discipline :
  stack_valid dom_parser_init /\
  (forall ev d d', stack_valid d -> notify ev d = ok d' -> stack_valid d') /\
  (forall evs d n,
      stack_valid d ->
      depth_after (List.length (stack d)) evs = Some n ->
      exists d', notify_all evs d = ok d' /\ stack_valid d' /\
                 List.length (stack d') = n) /\
  (forall ev d,
      stack d = [] -> asserts_stack ev = true ->
      notify ev d = throw assertion_failed).
Proof.
  split; [exact dom_parser_init_valid|]. split; [|split].
  - intros ev d d' Hvalid Hev.
    pose proof (notify_all_depth [ev] d Hvalid) as Hone.
    cbn [notify_all] in Hone. rewrite Hev, bind_ok in Hone.
    destruct (depth_after (List.length (stack d)) [ev]) as [n|].
    + destruct Hone as [d'' [Heq [Hvalid' _]]]. now inversion Heq; subst.
    + destruct Hone as [e He]. discriminate He.
  - intros evs d n Hvalid Hdepth.
    pose proof (notify_all_depth evs d Hvalid) as Hall.
    now rewrite Hdepth in Hall.
  - exact notify_empty_stack.
Qed.

Lemma selector_eqb_eq (a b : selector) : selector_eqb a b = true -> a = b.
Proof.
  destruct a as [i|k], b as [j|k']; simpl; try discriminate.
  - intro Hij. apply Nat.eqb_eq in Hij. now subst.
  - intro Hk. apply String.eqb_eq in Hk. now subst.
Qed.

Lemma nth_error_list_replace_other {A} (i j : nat) (x : A) (l : list A) :
  i <> j -> nth_error (list_replace i x l) j = nth_error l j.
Proof.
  revert i j. induction l as [|y l IH]; intros [|i] [|j] Hne; simpl;
    try reflexivity; try congruence.
  apply IH. congruence.
Qed.

Lemma map_find_replace_other (k k' : string) (x : value) (m : object_type) :
  k <> k' -> map_find k' (map_replace k x m) = map_find k' m.
Proof.
  intro Hne. induction m as [|[k0 y] m IH]; simpl; [reflexivity|].
  destruct (String.eqb_spec k k0) as [->|Hk]; simpl.
  - now rewrite (eqb_false_of_neq k' k0) by congruence.
  - now rewrite IH.
Qed.

Lemma nth_error_app_other {A} (l : list A) (x : A) (j : nat) :
  j <> List.length l -> nth_error (l ++ [x])%list j = nth_error l j.
Proof.
  revert j. induction l as [|y l IH]; intros [|j] Hne; simpl in *;
    try reflexivity; try congruence.
  - now destruct j.
  - apply IH. congruence.
Qed.

Lemma load_attach_other (c : value) (key : string) (x : value) (b : selector)
    (q : pointer) :
  selector_eqb (child c key) b = false ->
  load (attach c key x) (b :: q) = load c (b :: q).
Proof.
  destruct c as [| | | | m | a]; try reflexivity; destruct b as [j|k];
    simpl; try reflexivity; intro Hne.
  - rewrite map_find_insert_other; [reflexivity|].
    intros ->. now rewrite String.eqb_refl in Hne.
  - rewrite nth_error_app_other; [reflexivity|].
    intros ->. now rewrite Nat.eqb_refl in Hne.
Qed.

(** Storing a value into the container at [back] changes nothing that is
    not on the way to the child it is stored as. *)
Lemma store_attach_frame (back : pointer) (key : string) (x : value) :
  forall root root' c q,
    load root back = Some c ->
    store root back (attach c key x) = Some root' ->
    diverge (back ++ [child c key])%list q = true ->
    load root' q = load root q.
Proof.
  induction back as [|s back IH]; intros root root' c q Hload Hstore Hq.
  - simpl in Hload, Hstore. inversion Hload; inversion Hstore; subst.
    destruct q as [|b q]; [discriminate Hq|]. simpl in Hq.
    destruct (selector_eqb (child c key) b) eqn:Hb.
    + now destruct q.
    + now apply load_attach_other.
  - destruct q as [|b q]; [discriminate Hq|].
    cbn [app diverge] in Hq.
    destruct s as [i|k]; simpl in Hload, Hstore;
      destruct root as [| | | | m | a]; try discriminate.
    + destruct (nth_error a i) as [y|] eqn:Hy; [|discriminate].
      destruct (store y back (attach c key x)) as [y'|] eqn:Hy';
        [|discriminate].
      inversion Hstore; subst root'.
      destruct (selector_eqb (element i) b) eqn:Hb.
      * apply selector_eqb_eq in Hb. subst b. simpl.
        rewrite (nth_error_list_replace i y' y a Hy), Hy.
        now apply (IH y y' c q).
      * destruct b as [j|k']; simpl; [|reflexivity].
        rewrite nth_error_list_replace_other; [reflexivity|].
        intros ->. simpl in Hb. now rewrite Nat.eqb_refl in Hb.
    + destruct (map_find k m) as [y|] eqn:Hy; [|discriminate].
      destruct (store y back (attach c key x)) as [y'|] eqn:Hy';
        [|discriminate].
      inversion Hstore; subst root'.
      destruct (selector_eqb (member k) b) eqn:Hb.
      * apply selector_eqb_eq in Hb. subst b. simpl.
        rewrite (map_find_replace k y' y m Hy), Hy.
        now apply (IH y y' c q).
      * destruct b as [j|k']; simpl; [reflexivity|].
        rewrite map_find_replace_other; [reflexivity|].
        intros ->. simpl in Hb. now rewrite String.eqb_refl in Hb.
Qed.

(** X11. A handler changes the document only on the way from [doc] to the
    value it attaches to the container at the back of the stack: whatever
    a pointer addresses that parts ways with that path, the earlier
    elements of the array or the other members of the object included, it
    addresses after the event as before. *)
Theorem builder_touches_only_the_top (ev : event) (d d' : dom_parser)
    (back : pointer) (rest : list pointer) (c : value) (q : pointer) :
  stack d = back :: rest ->
  load (doc d) back = Some c ->
  notify ev d = ok d' ->
  diverge (back ++ [child c (key d)])%list q = true ->
  load (doc d') q = load (doc d) q.
Proof.
  destruct d as [p root key0 stack0]. simpl. intros -> Hload Hev Hq.
  assert (Hemplace : forall x,
             emplace x (mk_dom_parser p root key0 (back :: rest)) = ok d' ->
             load (doc d') q = load root q).
  { intros x Hx. unfold emplace in Hx. simpl in Hx. rewrite Hload in Hx.
    destruct c as [| | | | m | a]; try discriminate Hx.
    - destruct (store root back (VObject (map_insert key0 x m))) as [root'|] eqn:Hs;
        [|discriminate Hx].
      inversion Hx; subst d'. simpl.
      now apply (store_attach_frame back key0 x root root' (VObject m) q).
    - destruct (store root back (VArray (a ++ [x]))) as [root'|] eqn:Hs;
        [|discriminate Hx].
      inversion Hx; subst d'. simpl.
      now apply (store_attach_frame back key0 x root root' (VArray a) q). }
  assert (Hpush : forall t,
             emplace_and_push t (mk_dom_parser p root key0 (back :: rest)) = ok d' ->
             load (doc d') q = load root q).
  { intros t Hx. unfold emplace_and_push in Hx. simpl in Hx. rewrite Hload in Hx.
    destruct c as [| | | | m | a]; try discriminate Hx.
    - destruct (store root back (VObject (map_insert key0 (value_of_type t) m)))
        as [root'|] eqn:Hs; [|discriminate Hx].
      inversion Hx; subst d'. simpl.
      now apply (store_attach_frame back key0 (value_of_type t) root root'
                   (VObject m) q).
    - destruct (store root back (VArray (a ++ [value_of_type t])))
        as [root'|] eqn:Hs; [|discriminate Hx].
      inversion Hx; subst d'. simpl.
      now apply (store_attach_frame back key0 (value_of_type t) root root'
                   (VArray a) q). }
  destruct ev; simpl in Hev;
    try (now apply Hpush in Hev); try (now apply Hemplace in Hev);
    now inversion Hev.
Qed.

Lemma builder_touches_only_the_top_witness :
  notify (boolean_parsed true) example_builder =
  ok (mk_dom_parser parser_init
        (VArray [VObject [("a", number_of "1")]; VArray [VNull; VBoolean true]])
        "" [[element 1]; []]) /\
  diverge ([element 1] ++ [child (VArray [VNull]) ""])%list
    [element 0; member "a"] = true /\
  load (VArray [VObject [("a", number_of "1")]; VArray [VNull; VBoolean true]])
    [element 0; member "a"] =
  load (doc example_builder) [element 0; member "a"].
Proof.
  split; [reflexivity|]. split; [reflexivity|].
  exact (builder_touches_only_the_top (boolean_parsed true) example_builder
           (mk_dom_parser parser_init
              (VArray [VObject [("a", number_of "1")];
                       VArray [VNull; VBoolean true]])
              "" [[element 1]; []])
           [element 1] [[]] (VArray [VNull]) [element 0; member "a"]
           eq_refl eq_refl eq_refl eq_refl).
Defined.

(** ** The end of [read] *)

Lemma store_attach_keeps_array (back : pointer) (key : string) (x : value)
    (root root' c : value) :
  is_ type_array root = true ->
  load root back = Some c ->
  store root back (attach c key x) = Some root' ->
  is_ type_array root' = true.
Proof.
  destruct root as [| | | | m | a]; try discriminate. intros _.
  destruct back as [|[i|k] back]; simpl.
  - intros Hload Hstore. inversion Hload; subst. simpl in Hstore.
    now inversion Hstore.
  - destruct (nth_error a i) as [y|]; [|discriminate]. intros _.
    destruct (store y back _); [|discriminate]. intro Hs. now inversion Hs.
  - discriminate.
Qed.

Lemma notify_keeps_array (ev : event) (d d' : dom_parser) :
  is_ type_array (doc d) = true -> notify ev d = ok d' ->
  is_ type_array (doc d') = true.
Proof.
  intro Harr.
  assert (Hemplace : forall x, emplace x d = ok d' ->
                               is_ type_array (doc d') = true).
  { intros x Hx. unfold emplace in Hx.
    destruct (stack d) as [|back rest]; [discriminate Hx|].
    destruct (load (doc d) back) as [[| | | | m | a]|] eqn:Hload;
      try discriminate Hx.
    - destruct (store (doc d) back _) as [root'|] eqn:Hs; [|discriminate Hx].
      inversion Hx; subst d'. simpl.
      exact (store_attach_keeps_array back (key d) x (doc d) root' (VObject m)
               Harr Hload Hs).
    - destruct (store (doc d) back _) as [root'|] eqn:Hs; [|discriminate Hx].
      inversion Hx; subst d'. simpl.
      exact (store_attach_keeps_array back (key d) x (doc d) root' (VArray a)
               Harr Hload Hs). }
  assert (Hpush : forall t, emplace_and_push t d = ok d' ->
                            is_ type_array (doc d') = true).
  { intros t Hx. unfold emplace_and_push in Hx.
    destruct (stack d) as [|back rest]; [discriminate Hx|].
    destruct (load (doc d) back) as [[| | | | m | a]|] eqn:Hload;
      try discriminate Hx.
    - destruct (store (doc d) back _) as [root'|] eqn:Hs; [|discriminate Hx].
      inversion Hx; subst d'. simpl.
      exact (store_attach_keeps_array back (key d) (value_of_type t) (doc d)
               root' (VObject m) Harr Hload Hs).
    - destruct (store (doc d) back _) as [root'|] eqn:Hs; [|discriminate Hx].
      inversion Hx; subst d'. simpl.
      exact (store_attach_keeps_array back (key d) (value_of_type t) (doc d)
               root' (VArray a) Harr Hload Hs). }
  destruct ev; simpl; intro Hev;
    try (now apply Hpush in Hev); try (now apply Hemplace in Hev).
  - unfold on_object_end, pop_back in Hev. destruct (stack d); [discriminate|].
    now inversion Hev; subst.
  - unfold on_array_end, pop_back in Hev. destruct (stack d); [discriminate|].
    now inversion Hev; subst.
  - unfold on_key_parsed in Hev. now inversion Hev; subst.
Qed.

Lemma notify_all_keeps_array (evs : list event) :
  forall d d',
    is_ type_array (doc d) = true -> notify_all evs d = ok d' ->
    is_ type_array (doc d') = true.
Proof.
  induction evs as [|ev evs IH]; intros d d' Harr Hevs; simpl in Hevs.
  - now inversion Hevs; subst.
  - destruct (notify ev d) as [e|d1] eqn:Hev; [discriminate Hevs|].
    apply (IH d1 d'); [|exact Hevs]. now apply (notify_keeps_array ev d d1).
Qed.

(** X12. Whatever events the builder has handled, [doc] is still the
    wrapper array, so the assertion on its kind at the end of [read] never
    fails.  The assertion on the stack holds exactly when every container
    that was opened has been closed: then the document is the first
    element of the wrapper, or null when there is none, and otherwise
    [read] ends in a failed assertion. *)
Theorem document_after_events (evs : list event) (d' : dom_parser) :
  notify_all evs dom_parser_init = ok d' ->
  exists a,
    doc d' = VArray a /\
    depth_after 1 evs = Some (List.length (stack d')) /\
    document d' =
    if Nat.eqb (List.length (stack d')) 1 then ok (List.hd VNull a)
    else throw assertion_failed.
Proof.
  intro Hevs.
  pose proof (notify_all_keeps_array evs dom_parser_init d' eq_refl Hevs) as Harr.
  destruct (doc d') as [| | | | m | a] eqn:Hdoc; try discriminate Harr.
  exists a. split; [reflexivity|]. split.
  - pose proof (notify_all_depth evs dom_parser_init dom_parser_init_valid)
      as Hdepth.
    change (List.length (stack dom_parser_init)) with 1 in Hdepth.
    destruct (depth_after 1 evs) as [n|].
    + destruct Hdepth as [d'' [Heq [_ Hlen]]]. rewrite Hevs in Heq.
      inversion Heq; subst d''. now rewrite Hlen.
    + destruct Hdepth as [e He]. rewrite Hevs in He. discriminate He.
  - unfold document. rewrite Hdoc.
    destruct (Nat.eqb (List.length (stack d')) 1); [|reflexivity].
    now destruct a.
Qed.

Lemma document_after_events_witness :
  notify_all [array_start; null_parsed] dom_parser_init =
  ok (mk_dom_parser parser_init (VArray [VArray [VNull]]) "" [[element 0]; []]) /\
  exists a,
    VArray [VArray [VNull]] = VArray a /\
    depth_after 1 [array_start; null_parsed] = Some 2 /\
    document (mk_dom_parser parser_init (VArray [VArray [VNull]]) ""
                [[element 0]; []]) =
    throw assertion_failed.
Proof.
  split; [reflexivity|].
  exact (document_after_events [array_start; null_parsed]
           (mk_dom_parser parser_init (VArray [VArray [VNull]]) ""
              [[element 0]; []]) eq_refl).
Defined.

(** ** The text of a document *)

Lemma layout_free_app (s1 s2 : string) :
  layout_free (s1 ++ s2) = layout_free s1 && layout_free s2.
Proof.
  induction s1 as [|c s1 IH]; simpl; [reflexivity|].
  now rewrite IH, andb_assoc.
Qed.

Lemma layout_free_escape_char (c : ascii) : layout_free (escape_char c) = true.
Proof. destruct c as [[] [] [] [] [] [] [] []]; reflexivity. Qed.

Lemma layout_free_escape_string (s : string) :
  layout_free (escape_string s) = true.
Proof.
  induction s as [|c s IH]; [reflexivity|].
  now rewrite escape_string_cons, layout_free_app, layout_free_escape_char.
Qed.

Lemma layout_free_elements (a : list value) :
  Forall (fun x => numbers_layout_free x = true ->
                   layout_free (json_text x) = true) a ->
  forallb numbers_layout_free a = true ->
  forall at_begin, layout_free (json_elements json_text at_begin a) = true.
Proof.
  induction 1 as [|x a Hx _ IH]; intros Hall at_begin; [reflexivity|].
  apply forallb_cons_true in Hall as [Hnx Hna].
  destruct at_begin; simpl; now rewrite !layout_free_app, (Hx Hnx), (IH Hna).
Qed.

Lemma layout_free_members (m : list (string * value)) :
  Forall (fun kx => numbers_layout_free (snd kx) = true ->
                    layout_free (json_text (snd kx)) = true) m ->
  forallb (fun kx => numbers_layout_free (snd kx)) m = true ->
  forall at_begin, layout_free (json_members json_text at_begin m) = true.
Proof.
  induction 1 as [|[k x] m Hx _ IH]; intros Hall at_begin; [reflexivity|].
  apply forallb_cons_true in Hall as [Hnx Hnm]. simpl in Hx, Hnx.
  destruct at_begin; simpl;
    rewrite !layout_free_app, layout_free_escape_string; simpl;
    now rewrite !layout_free_app, (Hx Hnx), (IH Hnm).
Qed.

Lemma layout_free_json_text (v : value) :
  numbers_layout_free v = true -> layout_free (json_text v) = true.
Proof.
  induction v as [| b | n | s | m IHm | a IHa] using value_tree_ind;
    intro Hn; simpl in *.
  - reflexivity.
  - now destruct b.
  - exact Hn.
  - now rewrite layout_free_app, layout_free_escape_string.
  - now rewrite layout_free_app, (layout_free_members m IHm Hn).
  - now rewrite layout_free_app, (layout_free_elements a IHa Hn).
Qed.

(** X13. The text of a document is one line without layout: if no number
    literal of the tree holds a backspace, tab, newline, form feed or
    carriage return, then neither does the text [to_string] returns,
    whatever the strings and keys of the tree hold. *)
Theorem to_string_has_no_layout (v : value) (text : string) :
  numbers_layout_free v = true -> to_string v = ok text ->
  layout_free text = true.
Proof.
  intros Hn Hts. apply to_string_ok in Hts as [m [-> ->]].
  now apply layout_free_json_text.
Qed.

Lemma to_string_has_no_layout_witness :
  numbers_layout_free example_document = true /\
  to_string example_document = ok (json_text example_document) /\
  layout_free (json_text example_document) = true.
Proof.
  split; [reflexivity|]. split; [reflexivity|].
  apply (to_string_has_no_layout example_document); reflexivity.
Defined.

(** X14. Different documents have different texts: two trees that satisfy
    the invariants of the data model and have the same [to_string] text are
    the same tree. *)
Theorem to_string_injective (v1 v2 : value) (text : string) :
  well_formed v1 = true -> well_formed v2 = true ->
  to_string v1 = ok text -> to_string v2 = ok text -> v1 = v2.
Proof.
  intros Hwf1 Hwf2 H1 H2.
  apply andb_true_iff in Hwf1 as [Hs1 Hn1].
  apply andb_true_iff in Hwf2 as [Hs2 Hn2].
  apply to_string_ok in H1 as [m1 [-> Ht1]].
  apply to_string_ok in H2 as [m2 [-> Ht2]].
  assert (R1 : read text = ok (VObject m1)).
  { rewrite Ht1, read_json_text by (assumption || discriminate).
    now rewrite normalize_sorted. }
  assert (R2 : read text = ok (VObject m2)).
  { rewrite Ht2, read_json_text by (assumption || discriminate).
    now rewrite normalize_sorted. }
  rewrite R1 in R2. now inversion R2.
Qed.

Lemma to_string_injective_witness :
  well_formed example_document = true /\
  to_string example_document = ok (json_text example_document) /\
  example_document = example_document.
Proof.
  split; [reflexivity|]. split; [reflexivity|].
  apply (to_string_injective example_document example_document
           (json_text example_document)); reflexivity.
Defined.

(** ** What [write] and [read] do to a file *)

Lemma logged_writes_app (fi : scripted_file) (l1 l2 : list string) :
  mk_scripted_file (pending fi)
    ((log fi ++ List.map op_write l1) ++ List.map op_write l2) =
  mk_scripted_file (pending fi) (log fi ++ List.map op_write (l1 ++ l2)).
Proof. now rewrite map_app, app_assoc. Qed.

Lemma concat_chunks_app (l1 l2 : list string) :
  concat_chunks (l1 ++ l2) = concat_chunks l1 ++ concat_chunks l2.
Proof.
  induction l1 as [|s l1 IH]; simpl; [reflexivity|].
  now rewrite IH, append_assoc.
Qed.

Lemma writes_text_write (s : string) : writes_text (file_write s) s.
Proof.
  intro fi. exists [s]. split; [reflexivity|]. simpl. apply append_nil_r.
Qed.

Lemma writes_text_ret : writes_text (io_ret tt) "".
Proof.
  intros [pend lg]. exists []. split; [|reflexivity].
  unfold io_ret. simpl. now rewrite app_nil_r.
Qed.

Lemma writes_text_bind (m1 m2 : io scripted_file unit) (t1 t2 : string) :
  writes_text m1 t1 -> writes_text m2 t2 ->
  writes_text (io_bind m1 (fun _ => m2)) (t1 ++ t2).
Proof.
  intros H1 H2 fi. destruct (H1 fi) as [l1 [E1 C1]].
  destruct (H2 (mk_scripted_file (pending fi) (log fi ++ List.map op_write l1)))
    as [l2 [E2 C2]].
  exists (l1 ++ l2)%list. split.
  - unfold io_bind. rewrite E1. unfold ok. rewrite E2. simpl.
    now rewrite map_app, app_assoc.
  - now rewrite concat_chunks_app, C1, C2.
Qed.

Lemma writes_text_elements (a : list value) :
  Forall (fun x => writes_text (write_internal x) (json_text x)) a ->
  forall at_begin,
    writes_text (write_elements write_internal at_begin a)
      (json_elements json_text at_begin a).
Proof.
  induction 1 as [|x a Hx _ IH]; intro at_begin;
    cbn [write_elements json_elements].
  - apply writes_text_ret.
  - apply writes_text_bind; [|apply writes_text_bind; [exact Hx | apply IH]].
    destruct at_begin; [apply writes_text_ret | apply writes_text_write].
Qed.

Lemma writes_text_members (m : list (string * value)) :
  Forall (fun kx => writes_text (write_internal (snd kx)) (json_text (snd kx))) m ->
  forall at_begin,
    writes_text (write_members write_internal at_begin m)
      (json_members json_text at_begin m).
Proof.
  induction 1 as [|[k x] m Hx _ IH]; intro at_begin;
    cbn [write_members json_members].
  - apply writes_text_ret.
  - apply writes_text_bind;
      [destruct at_begin; [apply writes_text_ret | apply writes_text_write]|].
    repeat (apply writes_text_bind; [apply writes_text_write|]).
    apply writes_text_bind; [exact Hx | apply IH].
Qed.

Lemma writes_text_internal (v : value) :
  writes_text (write_internal v) (json_text v).
Proof.
  induction v as [| b | n | s | m IHm | a IHa] using value_tree_ind;
    cbn [write_internal json_text].
  - apply writes_text_write.
  - destruct b; apply writes_text_write.
  - apply writes_text_write.
  - repeat (apply writes_text_bind; [apply writes_text_write|]).
    apply writes_text_write.
  - apply writes_text_bind; [apply writes_text_write|].
    apply writes_text_bind; [now apply writes_text_members|].
    apply writes_text_write.
  - apply writes_text_bind; [apply writes_text_write|].
    apply writes_text_bind; [now apply writes_text_elements|].
    apply writes_text_write.
Qed.

(** X15. What [write] does to a file, seen on a file that logs its
    operations: with an object as root it opens the file once, in create
    mode, then only writes, pieces that put together are the text of the
    document, and closes the file last; with any other root the log stays
    as it was. *)
Theorem write_opens_writes_closes (v : value) (fi : scripted_file) :
  (get_type v = type_object ->
   exists pieces,
     write v fi =
     (mk_scripted_file (pending fi)
        (log fi ++ op_open mode_create :: List.map op_write pieces ++ [op_close]),
      ok tt) /\
     concat_chunks pieces = json_text v /\
     to_string v = ok (concat_chunks pieces)) /\
  (get_type v <> type_object -> fst (write v fi) = fi).
Proof.
  split.
  - intro Hobject. destruct (get_type_object v Hobject) as [m ->].
    destruct (writes_text_internal (VObject m) (logged (op_open mode_create) fi))
      as [pieces [Hw Hc]].
    exists pieces. split; [|split].
    + unfold write, with_guard.
      change (is_ type_object (VObject m)) with true. cbv beta iota delta [negb].
      change (file_open mode_create fi)
        with (logged (op_open mode_create) fi, @ok unit tt).
      cbv beta iota. rewrite Hw. simpl. unfold logged. simpl.
      now rewrite <- !app_assoc.
    + exact Hc.
    + now rewrite Hc, to_string_object.
  - intro Hne. now rewrite write_not_object.
Qed.

Lemma file_read_scripted (size : nat) (chunk : string) (chunks : list string)
    (lg : list file_operation) :
  file_read size (mk_scripted_file (chunk :: chunks) lg) =
  (mk_scripted_file chunks (lg ++ [op_read size])%list, ok chunk).
Proof. reflexivity. Qed.

Lemma file_read_scripted_end (size : nat) (lg : list file_operation) :
  file_read size (mk_scripted_file [] lg) =
  (mk_scripted_file [] (lg ++ [op_read size])%list, ok "").
Proof. reflexivity. Qed.

Lemma read_loop_scripted (chunks : list string) :
  Forall (fun chunk => chunk <> "" /\ String.length chunk <= buf_size) chunks ->
  forall p lg,
    exists fi' reads,
      read_loop (S (List.length chunks)) buf_size p (mk_scripted_file chunks lg) =
      Some (fi', feed_chunks p chunks) /\
      log fi' = (lg ++ repeat (op_read buf_size) reads)%list /\
      (succeeds (feed_chunks p chunks) ->
       reads = S (List.length chunks) /\ pending fi' = []).
Proof.
  induction 1 as [|chunk chunks [Hne Hlen] _ IH]; intros p lg.
  - exists (mk_scripted_file [] (lg ++ [op_read buf_size])%list), 1.
    rewrite read_loop_unfold, file_read_scripted_end.
    split; [reflexivity|]. split; [reflexivity|]. now intros _.
  - rewrite read_loop_unfold, file_read_scripted.
    unfold ok at 1. cbv beta iota.
    apply Nat.leb_le in Hlen. rewrite Hlen. cbv beta iota delta [negb].
    destruct chunk as [|c chunk]; [congruence|].
    change (Nat.eqb (String.length (String c chunk)) 0) with false.
    cbv beta iota. cbn [feed_chunks].
    destruct (feed p (String c chunk)) as [e|p'] eqn:Hfeed.
    + exists (mk_scripted_file chunks (lg ++ [op_read buf_size])%list), 1.
      split; [reflexivity|]. split; [reflexivity|].
      intros [d Hd]. discriminate Hd.
    + destruct (IH p' (lg ++ [op_read buf_size])%list)
        as [fi' [reads [Hloop [Hlog Hok]]]].
      exists fi', (S reads). split; [exact Hloop|]. split.
      * rewrite Hlog, <- app_assoc. reflexivity.
      * intro Hs. destruct (Hok Hs) as [-> Hp]. now split.
Qed.

(** X16. [read] over a file that hands out the data in chunks of any
    sizes, none empty and none above the buffer size, returns what [read]
    returns for the whole data.  It opens the file for reading, asks for a
    buffer of 4096 bytes each time, once more than there are chunks when
    the data is accepted, and closes the file last, also when the data is
    rejected. *)
Theorem read_over_any_chunks (chunks : list string) :
  Forall (fun chunk => chunk <> "" /\ String.length chunk <= buf_size) chunks ->
  exists fi' reads,
    read_file (S (List.length chunks)) buf_size (mk_scripted_file chunks []) =
    Some (fi', read (concat_chunks chunks)) /\
    log fi' =
    (op_open mode_read :: repeat (op_read buf_size) reads ++ [op_close])%list /\
    (succeeds (feed dom_parser_init (concat_chunks chunks)) ->
     reads = S (List.length chunks) /\ pending fi' = []).
Proof.
  intro Hchunks. unfold read_file.
  change (file_open mode_read (mk_scripted_file chunks []))
    with (mk_scripted_file chunks [op_open mode_read], @ok unit tt).
  cbv beta iota.
  destruct (read_loop_scripted chunks Hchunks dom_parser_init [op_open mode_read])
    as [fi' [reads [Hloop [Hlog Hok]]]].
  rewrite Hloop. exists (file_close fi'), reads. split; [|split].
  - now rewrite read_feed, feed_chunks_concat.
  - simpl. now rewrite Hlog.
  - rewrite <- feed_chunks_concat. exact Hok.
Qed.

Lemma read_over_any_chunks_witness :
  Forall (fun chunk => chunk <> "" /\ String.length chunk <= buf_size)
    ["[tr"; "ue"; ",nu"; "ll]"] /\
  exists fi' reads,
    read_file 5 buf_size (mk_scripted_file ["[tr"; "ue"; ",nu"; "ll]"] []) =
    Some (fi', read "[true,null]") /\
    log fi' =
    (op_open mode_read :: repeat (op_read buf_size) reads ++ [op_close])%list /\
    (succeeds (feed dom_parser_init "[true,null]") ->
     reads = 5 /\ pending fi' = []).
Proof.
  assert (Hchunks : Forall (fun chunk => chunk <> "" /\
                                         String.length chunk <= buf_size)
                      ["[tr"; "ue"; ",nu"; "ll]"]).
  { repeat constructor; try discriminate; unfold buf_size; simpl; lia. }
  split; [exact Hchunks|].
  exact (read_over_any_chunks ["[tr"; "ue"; ",nu"; "ll]"] Hchunks).
Defined.

(** X17. On a file whose open and write operations succeed, [write]
    succeeds exactly when the root is an object and fails with the
    invalid-root error exactly when it is not. *)
Theorem write_succeeds_exactly_on_object_root (F : Type) (file_F : file F)
    (v : value) (fi : F) :
  reliable ->
  (snd (write v fi) = ok tt <-> get_type v = type_object) /\
  (snd (write v fi) = throw invalid_root <-> get_type v <> type_object).
Proof.
  intro Hreliable.
  assert (Hdec : get_type v = type_object \/ get_type v <> type_object)
    by (destruct v; (now left) || (right; discriminate)).
  destruct Hdec as [Hobject|Hother].
  - pose proof (write_object_reliable v fi Hreliable Hobject) as Hok.
    rewrite Hok. split; split; try (intros; assumption || reflexivity).
    + intro Hfail. discriminate Hfail.
    + intro Hne. now contradiction Hne.
  - rewrite (write_not_object v fi Hother). simpl. split; split.
    + intro Hok. discriminate Hok.
    + intro Hobject. now contradiction Hother.
    + intros _. exact Hother.
    + reflexivity.
Qed.

Lemma write_succeeds_exactly_on_object_root_witness :
  @reliable vector_file _ /\
  (snd (write example_document empty_vector_file) = ok tt <->
   get_type example_document = type_object) /\
  (snd (write example_document empty_vector_file) = throw invalid_root <->
   get_type example_document <> type_object).
Proof.
  split; [exact vector_file_reliable|].
  exact (write_succeeds_exactly_on_object_root vector_file _ example_document
           empty_vector_file vector_file_reliable).
Defined.
